(** * Pathing/GPS.py: wheelchair-accessible routing over a street multigraph

    A shallow embedding of [Pathing/GPS.py]: [costWheelchair],
    [euclidianDistNode], [wheelchairPath], [pathFromCoords],
    [searchNodeName] and the colour rule of [showMap], together with the
    library routine they drive, [networkx.astar_path] on a
    [networkx.MultiDiGraph].

    Python floats are IEEE binary64 (Rocq's primitive floats).  The one
    operation of the program that IEEE does not fix is [x ** 2], which
    CPython hands to the platform's [pow]; it is a parameter ([Libm]) of the
    development. *)

From Stdlib Require Import ZArith List Ascii String Bool Lia PrimFloat Permutation.
From Stdlib Require Import Sorted.
Import ListNotations.

Set Implicit Arguments.
Set Warnings "-register-all".
Local Open Scope Z_scope.
Local Open Scope string_scope.

(** ** Exceptions *)

Inductive exn : Type :=
| KeyError
| TypeError
| OverflowError
| ValueError
| NodeNotFound
| NetworkXNoPath.

(** [except e] catches [e'] when [e'] is [e]: none of these classes is a
    subclass of another. *)
Definition exn_eqb (a b : exn) : bool :=
  match a, b with
  | KeyError, KeyError | TypeError, TypeError
  | OverflowError, OverflowError | ValueError, ValueError
  | NodeNotFound, NodeNotFound | NetworkXNoPath, NetworkXNoPath => true
  | _, _ => false
  end.

(** ** Python floats *)

(** The float operations the program uses.  The integer literals [0] and [1]
    of the source ([dist = 0], the default [length] of [1]) are read as the
    floats of the same value, which is how Python's arithmetic and
    comparisons treat them once mixed with a float.  [f_pow2 x] is [x ** 2]:
    its value, or [None] when CPython raises [OverflowError]. *)
Class PyFloat : Type := {
  num : Type;
  f_zero : num;
  f_one : num;
  f_inf : num;                       (* float('inf') *)
  f_add : num -> num -> num;
  f_sub : num -> num -> num;
  f_pow2 : num -> option num;        (* x ** 2 *)
  f_sqrt : num -> num;               (* the C library's sqrt *)
  f_eqb : num -> num -> bool;        (* == *)
  f_ltb : num -> num -> bool;        (* <  *)
  f_leb : num -> num -> bool         (* <= *)
}.

(** What CPython's [float_pow] obtains from the platform's [pow(x, 2.0)]
    for a finite [x] that is positive and not 1: the value, or [None] when
    the call reports a range error, which CPython raises as
    [OverflowError]. *)
Class Libm : Type := {
  libm_pow2 : float -> option float
}.

(** [x ** 2] in CPython ([float_pow] with the exponent [2.0]): a NaN is
    returned as it is, an infinity gives [+inf], a zero gives [+0.0], the
    sign of a negative [x] is dropped, 1 gives 1, and every other argument
    goes to the platform. *)
Definition float_pow2 {L : Libm} (x : float) : option float :=
  if PrimFloat.is_nan x then Some x
  else if PrimFloat.is_infinity x then Some infinity
  else if PrimFloat.eqb x 0 then Some 0%float
  else if PrimFloat.eqb (PrimFloat.abs x) 1 then Some 1%float
  else libm_pow2 (PrimFloat.abs x).

(** IEEE 754 binary64 on a given platform. *)
Definition binary64_on (L : Libm) : PyFloat := {|
  num := float;
  f_zero := PrimFloat.zero;
  f_one := PrimFloat.one;
  f_inf := PrimFloat.infinity;
  f_add := PrimFloat.add;
  f_sub := PrimFloat.sub;
  f_pow2 := float_pow2;
  f_sqrt := PrimFloat.sqrt;
  f_eqb := PrimFloat.eqb;
  f_ltb := PrimFloat.ltb;
  f_leb := PrimFloat.leb
|}.

(** A platform whose [pow] is correctly rounded: the square is the IEEE
    product, and a product out of range is the range error.  It is the
    platform of the runs on the small maps below, whose squares are all
    exact. *)
Definition rounded_pow2 (x : float) : option float :=
  let r := PrimFloat.mul x x in
  if PrimFloat.is_infinity r then None else Some r.

Definition correctly_rounded : Libm := {| libm_pow2 := rounded_pow2 |}.

Definition binary64 : PyFloat := binary64_on correctly_rounded.

(** ** Association lists: Python dicts in insertion order *)

Section Assoc.
Variables (K V : Type) (eqb : K -> K -> bool).

Fixpoint assoc (k : K) (d : list (K * V)) : option V :=
  match d with
  | [] => None
  | (k', v) :: d' => if eqb k k' then Some v else assoc k d'
  end.

Definition mem (k : K) (d : list (K * V)) : bool :=
  match assoc k d with Some _ => true | None => false end.

(** [d[k] = v]: the binding is replaced in place when [k] is a key, appended
    otherwise. *)
Fixpoint setitem (k : K) (v : V) (d : list (K * V)) : list (K * V) :=
  match d with
  | [] => [(k, v)]
  | (k', v') :: d' =>
      if eqb k k' then (k, v) :: d' else (k', v') :: setitem k v d'
  end.
End Assoc.

(** ** Dict keys and outcomes *)

Inductive key : Type :=
| KInt (z : Z)
| KStr (s : string).

Definition key_eqb (a b : key) : bool :=
  match a, b with
  | KInt x, KInt y => Z.eqb x y
  | KStr s, KStr t => String.eqb s t
  | _, _ => false
  end.

Inductive outcome (A : Type) : Type :=
| Ret (a : A)
| Raise (e : exn)
| OutOfFuel.
Arguments Raise {A} e.
Arguments OutOfFuel {A}.

Section Program.
Context {F : PyFloat}.

(** ** Python values and graphs *)

Inductive pyval : Type :=
| VNone
| VStr (s : string)
| VNum (x : num)
| VDict (d : list (key * pyval)).

Definition dict : Type := list (key * pyval).

(** [d.get(k, default)] *)
Definition get (d : dict) (k : key) (default : pyval) : pyval :=
  match assoc key_eqb k d with
  | Some v => v
  | None => default
  end.

(** [v == s] for a string literal [s]: only a string compares equal to it. *)
Definition eq_str (v : pyval) (s : string) : bool :=
  match v with
  | VStr t => String.eqb t s
  | _ => false
  end.

Definition node : Type := Z.

(** A [networkx.MultiDiGraph]: [nodes] is [G._node] (node to attribute
    dict), [adj] is [G._adj] (node to successor to the dict of the parallel
    edges between the two, which maps an edge key to that edge's attribute
    dict). *)
Record MultiDiGraph : Type := {
  nodes : list (node * dict);
  adj : list (node * list (node * dict))
}.

(** ** Effects: the graph object, standard output, exceptions *)

Record world : Type := {
  graph : MultiDiGraph;      (* the object the argument [G] refers to *)
  stdout : list string
}.

Definition M (A : Type) : Type := world -> outcome A * world.

Definition ret {A} (a : A) : M A := fun w => (Ret a, w).
Definition raise {A} (e : exn) : M A := fun w => (Raise e, w).
Definition out_of_fuel {A} : M A := fun w => (OutOfFuel, w).

Definition bind {A B} (m : M A) (k : A -> M B) : M B :=
  fun w =>
    match m w with
    | (Ret a, w') => k a w'
    | (Raise e, w') => (Raise e, w')
    | (OutOfFuel, w') => (OutOfFuel, w')
    end.

(** [try: m except e: handler] *)
Definition try_except {A} (m : M A) (e : exn) (handler : M A) : M A :=
  fun w =>
    match m w with
    | (Raise e', w') => if exn_eqb e' e then handler w' else (Raise e', w')
    | r => r
    end.

Definition the_graph : M MultiDiGraph := fun w => (Ret (graph w), w).

Definition print (s : string) : M unit :=
  fun w => (Ret tt, {| graph := graph w; stdout := stdout w ++ [s] |}).

(** [d[k]], which raises [KeyError] on a missing key. *)
Definition getitem {K V} (eqb : K -> K -> bool) (d : list (K * V)) (k : K)
  : M V :=
  match assoc eqb k d with
  | Some v => ret v
  | None => raise KeyError
  end.
End Program.

Declare Scope py_scope.
Delimit Scope py_scope with py.
Notation "x <- m ;; k" := (bind m (fun x => k))
  (at level 61, m at next level, right associativity) : py_scope.
Notation "' p <- m ;; k" := (bind m (fun p => k))
  (at level 61, p pattern, m at next level, right associativity) : py_scope.
Local Open Scope py_scope.

(** ** The program *)

Section Search.
Context {F : PyFloat}.

(** *** [costWheelchair] (GPS.py, lines 78-82) *)

Definition costWheelchair (u v : node) (data : dict) : pyval :=
  if eq_str (get data (KStr "wheelchair") VNone) "yes"
  then get data (KStr "length") (VNum f_one)
  else VNum f_inf.

(** *** [euclidianDistNode] (GPS.py, lines 164-169) *)

(** [G.nodes[u][attr]] *)
Definition node_attr (u : node) (attr : string) : M pyval :=
  G <- the_graph ;;
  d <- getitem Z.eqb (nodes G) u ;;
  getitem key_eqb d (KStr attr).

(** [a - b] on the values of two attributes: defined on numbers, a
    [TypeError] on strings, dicts and [None]. *)
Definition py_sub (a b : pyval) : M num :=
  match a, b with
  | VNum x, VNum y => ret (f_sub x y)
  | _, _ => raise TypeError
  end.

(** [x ** 2] *)
Definition sq (x : num) : M num :=
  match f_pow2 x with
  | Some r => ret r
  | None => raise OverflowError
  end.

(** [math.sqrt(x)]: the C library's [sqrt], with a [ValueError] when it
    answers NaN to an argument that is not one. *)
Definition py_sqrt (x : num) : M num :=
  let r := f_sqrt x in
  if negb (f_eqb r r) && f_eqb x x then raise ValueError else ret r.

(** The operands of [sqrt((x1 - x2) ** 2 + (y1 - y2) ** 2)] are evaluated
    from left to right, after the four lookups. *)
Definition euclidianDistNode (u v : node) : M num :=
  x1 <- node_attr u "x" ;;
  y1 <- node_attr u "y" ;;
  x2 <- node_attr v "x" ;;
  y2 <- node_attr v "y" ;;
  dx <- py_sub x1 x2 ;;
  a <- sq dx ;;
  dy <- py_sub y1 y2 ;;
  b <- sq dy ;;
  py_sqrt (f_add a b).

(** *** [networkx.astar_path]

    The library routine behind [wheelchairPath], called with a callable
    [weight] and the default [cutoff=None].  It hides an edge only when the
    weight is [None]; any number, [+inf] included, is added to the distance.
    On a [MultiDiGraph] the third argument it passes to a callable weight is
    [G._adj[u][v]], the dict of the parallel edges between the two nodes. *)

(** A queue entry [(priority, counter, node, dist, parent)]. *)
Record entry : Type := {
  e_prio : num;
  e_count : nat;
  e_node : node;
  e_dist : num;
  e_parent : option node
}.

(** Python's tuple order on entries: the priorities decide unless they are
    equal, then the counters do; the counters are pairwise different, so no
    later component is ever compared. *)
Definition entry_ltb (a b : entry) : bool :=
  if f_eqb (e_prio a) (e_prio b)
  then Nat.ltb (e_count a) (e_count b)
  else f_ltb (e_prio a) (e_prio b).

(** The [heapq] frontier as a priority queue: [heappush] adds an entry,
    [heappop] removes the least one in the order above.  That is the entry
    [heapq.heappop] returns as long as no priority is a NaN, when the order
    is total; with a NaN among the priorities the answer of [heapq] depends
    on the layout of its array, and the statements below that depend on the
    order in which entries leave the queue assume that there is none. *)
Definition heappush (q : list entry) (x : entry) : list entry := q ++ [x].

Fixpoint heappop (q : list entry) : option (entry * list entry) :=
  match q with
  | [] => None
  | x :: q' =>
      match heappop q' with
      | None => Some (x, [])
      | Some (m, r) => if entry_ltb m x then Some (m, x :: r) else Some (x, q')
      end
  end.

(** The search's private state: the counter [c], the [queue], and the dicts
    [enqueued] (node to [(cost, h)]) and [explored] (node to parent). *)
Record search : Type := {
  c : nat;
  queue : list entry;
  enqueued : list (node * (num * num));
  explored : list (node * option node)
}.

Section Astar.
(** The two callables the caller passes. *)
Variable heuristic : node -> node -> M num.
Variable weight : node -> node -> dict -> M pyval.
Variable target : node.

Definition push (s : search) (neighbor : node) (ncost h : num)
           (curnode : node) : search :=
  {| c := S (c s);
     queue := heappush (queue s)
                {| e_prio := f_add ncost h; e_count := c s;
                   e_node := neighbor; e_dist := ncost;
                   e_parent := Some curnode |};
     enqueued := setitem Z.eqb neighbor (ncost, h) (enqueued s);
     explored := explored s |}.

(** [for neighbor, w in G_succ[curnode].items(): ...] *)
Fixpoint relax (curnode : node) (dist : num) (items : list (node * dict))
         (s : search) : M search :=
  match items with
  | [] => ret s
  | (neighbor, w) :: rest =>
      cost <- weight curnode neighbor w ;;
      match cost with
      | VNone => relax curnode dist rest s          (* a hidden edge *)
      | VNum cost =>
          let ncost := f_add dist cost in
          match assoc Z.eqb neighbor (enqueued s) with
          | Some (qcost, h) =>
              if f_leb qcost ncost then relax curnode dist rest s
              else relax curnode dist rest (push s neighbor ncost h curnode)
          | None =>
              h <- heuristic neighbor target ;;
              relax curnode dist rest (push s neighbor ncost h curnode)
          end
      | _ => raise TypeError                         (* dist + cost *)
      end
  end.

(** [while node is not None: path.append(node); node = explored[node]] *)
Fixpoint walk_back (fuel : nat) (explored : list (node * option node))
         (n : option node) (path : list node) : M (list node) :=
  match n with
  | None => ret path
  | Some n' =>
      match fuel with
      | O => out_of_fuel
      | S fuel' =>
          p <- getitem Z.eqb explored n' ;;
          walk_back fuel' explored p (path ++ [n'])
      end
  end.

(** [while queue: ...], each unit of [fuel] paying for one iteration. *)
Fixpoint astar_loop (fuel : nat) (s : search) : M (list node) :=
  match fuel with
  | O => out_of_fuel
  | S fuel' =>
      match heappop (queue s) with
      | None => raise NetworkXNoPath
      | Some (top, q') =>
          let curnode := e_node top in
          let dist := e_dist top in
          let parent := e_parent top in
          let s := {| c := c s; queue := q'; enqueued := enqueued s;
                      explored := explored s |} in
          let expand :=
            let s := {| c := c s; queue := queue s; enqueued := enqueued s;
                        explored := setitem Z.eqb curnode parent (explored s) |} in
            G <- the_graph ;;
            items <- getitem Z.eqb (adj G) curnode ;;
            s' <- relax curnode dist items s ;;
            astar_loop fuel' s' in
          if Z.eqb curnode target then
            path <- walk_back fuel' (explored s) parent [curnode] ;;
            ret (rev path)
          else
            match assoc Z.eqb curnode (explored s) with
            | Some None => astar_loop fuel' s
            | Some (Some _) =>
                '(qcost, _) <- getitem Z.eqb (enqueued s) curnode ;;
                if f_ltb qcost dist then astar_loop fuel' s else expand
            | None => expand
            end
      end
  end.

Definition astar_path (fuel : nat) (source : node) : M (list node) :=
  G <- the_graph ;;
  if negb (mem Z.eqb source (nodes G)) then raise NodeNotFound
  else if negb (mem Z.eqb target (nodes G)) then raise NodeNotFound
  else
    astar_loop fuel
      {| c := 1;
         queue := [ {| e_prio := f_zero; e_count := 0; e_node := source;
                       e_dist := f_zero; e_parent := None |} ];
         enqueued := [];
         explored := [] |}.
End Astar.

(** *** [wheelchairPath] (GPS.py, lines 183-190) *)

Definition wheelchairPath (fuel : nat) (origin endpoint : node)
  : M (list node) :=
  try_except
    (astar_path (fun u v => euclidianDistNode u v)
                (fun u v data => ret (costWheelchair u v data))
                endpoint fuel origin)
    NetworkXNoPath
    (_ <- print "No path found that is wheelchair accessible." ;;
     ret []).

(** *** [pathFromCoords] (GPS.py, lines 133-138) *)

Section Coords.
(** [osmnx.distance.nearest_nodes(G, X, Y)], an external lookup that reads
    the graph and the two coordinates. *)
Variable nearest_nodes : MultiDiGraph -> num -> num -> outcome node.

Definition nearest (X Y : num) : M node :=
  fun w => (nearest_nodes (graph w) X Y, w).

Definition pathFromCoords (fuel : nat) (x1 y1 x2 y2 : num)
  : M (list node) :=
  origin <- nearest y1 x1 ;;
  destination <- nearest y1 x1 ;;
  wheelchairPath fuel origin destination.
End Coords.
End Search.

(** ** Routes and their cost *)

Section Routes.
Context {F : PyFloat}.

(** The edge's [wheelchair] attribute is exactly the accessible value. *)
Definition accessible (attrs : dict) : Prop :=
  assoc key_eqb (KStr "wheelchair") attrs = Some (VStr "yes").

(** [G] has an edge from [u] to [v] with key [k] and attribute dict [attrs]. *)
Definition edge (G : MultiDiGraph) (u v : node) (k : key) (attrs : dict)
  : Prop :=
  exists succ kd,
    assoc Z.eqb u (adj G) = Some succ /\
    assoc Z.eqb v succ = Some kd /\
    assoc key_eqb k kd = Some (VDict attrs).

(** A path leaving [u]: the hops [(next node, edge key, edge attributes)]
    taken in turn, ending at [v]. *)
Fixpoint walk (G : MultiDiGraph) (u : node)
         (hops : list (node * key * dict)) (v : node) : Prop :=
  match hops with
  | [] => u = v
  | (n, k, attrs) :: rest => edge G u n k attrs /\ walk G n rest v
  end.

Definition all_accessible (hops : list (node * key * dict)) : Prop :=
  Forall (fun h => accessible (snd h)) hops.

(** What [costWheelchair] charges for an edge with these attributes. *)
Definition edge_cost (u v : node) (attrs : dict) : option num :=
  match costWheelchair u v attrs with
  | VNum x => Some x
  | _ => None
  end.

(** The total cost of a path, accumulated hop by hop from [acc] as the
    search does ([ncost = dist + cost]); [None] when an edge's cost is not a
    number. *)
Fixpoint total_from (acc : num) (u : node) (hops : list (node * key * dict))
  : option num :=
  match hops with
  | [] => Some acc
  | (n, _, attrs) :: rest =>
      match edge_cost u n attrs with
      | Some x => total_from (f_add acc x) n rest
      | None => None
      end
  end.

Definition total_cost (u : node) (hops : list (node * key * dict))
  : option num :=
  total_from f_zero u hops.

(** The heuristic never overestimates the cost of an accessible path. *)
Definition admissible (w : world) : Prop :=
  forall u v hops h cost,
    walk (graph w) u hops v ->
    all_accessible hops ->
    fst (euclidianDistNode u v w) = Ret h ->
    total_cost u hops = Some cost ->
    f_leb h cost = true.

(** [m] leaves the component [proj] of the world as it found it. *)
Definition keeps {A B} (proj : world -> B) (m : M A) : Prop :=
  forall w, proj (snd (m w)) = proj w.
End Routes.


(** ** Small street maps *)

Section Maps.
Existing Instance binary64.

(** A node's attribute dict, and the attribute dict of a street segment. *)
Definition at_xy (x y : float) : dict :=
  [(KStr "x", VNum x); (KStr "y", VNum y)].

Definition street (wheelchair : string) (length : float) : dict :=
  [(KStr "wheelchair", VStr wheelchair); (KStr "length", VNum length)].

(** A segment that carries no [wheelchair] tag at all. *)
Definition untagged (length : float) : dict :=
  [(KStr "length", VNum length)].

(** The dict of parallel edges between two nodes when there is one edge: its
    key is [0], as [MultiDiGraph.add_edge] numbers them. *)
Definition one_edge (attrs : dict) : dict := [(KInt 0, VDict attrs)].

Definition map_of (ns : list (node * dict))
           (succ : list (node * list (node * dict))) : world :=
  {| graph := {| nodes := ns; adj := succ |}; stdout := [] |}.

(** Two nodes, one accessible street of length 5 from 1 to 2. *)
Definition one_street : world :=
  map_of [(1, at_xy 0 0); (2, at_xy 0 0)]
         [(1, [(2, one_edge (street "yes" 5))]); (2, [])].

(** The same map with the street marked not accessible. *)
Definition closed_street : world :=
  map_of [(1, at_xy 0 0); (2, at_xy 0 0)]
         [(1, [(2, one_edge (street "no" 5))]); (2, [])].

(** 1 to 2 is accessible, 2 to 3 carries no [wheelchair] tag. *)
Definition untagged_link : world :=
  map_of [(1, at_xy 0 0); (2, at_xy 0 0); (3, at_xy 0 0)]
         [(1, [(2, one_edge (street "yes" 2))]);
          (2, [(3, one_edge (untagged 2))]);
          (3, [])].

(** A right triangle with legs 3 and 4: every street is accessible and as
    long as the straight line between its ends or longer; the street from 1
    straight to 3 has length 100, the two legs add up to 7. *)
Definition detour : world :=
  map_of [(1, at_xy 0 0); (2, at_xy 3 0); (3, at_xy 3 4)]
         [(1, [(3, one_edge (street "yes" 100)); (2, one_edge (street "yes" 3))]);
          (2, [(3, one_edge (street "yes" 4))]);
          (3, [])].

(** The two ways from 1 to 3 on that map, as hops. *)
Definition long_way : list (node * key * dict) :=
  [(3, KInt 0, street "yes" 100)].

Definition short_way : list (node * key * dict) :=
  [(2, KInt 0, street "yes" 3); (3, KInt 0, street "yes" 4)].

(** Two nodes and no street. *)
Definition islands : world :=
  map_of [(1, at_xy 0 0); (2, at_xy 3 4)] [(1, []); (2, [])].


(** Three nodes on one line, each street exactly as long as the distance
    the heuristic computes between its two ends. *)
Definition in_line : world :=
  map_of [(1, at_xy 0 0); (2, at_xy 32 31); (3, at_xy 96 93)]
         [(1, [(2, one_edge (street "yes" 0x1.646d3ce7384f6p+5))]);
          (2, [(3, one_edge (street "yes" 0x1.646d3ce7384f6p+6))]);
          (3, [])].


(** A stand-in for the external nearest-node lookup: the first node of the
    graph, whatever the coordinates. *)
Definition first_node (G : MultiDiGraph) (X Y : float) : outcome node :=
  match nodes G with
  | (n, _) :: _ => Ret n
  | [] => Raise KeyError
  end.

(** The [length] attribute is absent or a finite number that is not
    negative. *)
Definition length_in_range (attrs : dict) : Prop :=
  match assoc key_eqb (KStr "length") attrs with
  | None => True
  | Some (VNum l) => PrimFloat.leb 0 l = true /\ PrimFloat.ltb l infinity = true
  | Some _ => False
  end.
End Maps.

(** ** Graph shape, routes over nodes, and the state of a running search *)

Section Shape.
Context {F : PyFloat}.

(** The nodes [v] with at least one edge from [u], in the order of
    [G._adj[u]]. *)
Definition successors (G : MultiDiGraph) (u : node) : list node :=
  match assoc Z.eqb u (adj G) with
  | Some items => map fst items
  | None => []
  end.

(** A sequence of nodes in which each one is followed by a successor. *)
Fixpoint route (G : MultiDiGraph) (path : list node) : Prop :=
  match path with
  | a :: (b :: _) as rest => In b (successors G a) /\ route G rest
  | _ => True
  end.

(** [path] leads from [u] to [v]. *)
Definition leads (G : MultiDiGraph) (u v : node) (path : list node) : Prop :=
  hd_error path = Some u /\ last path u = v /\ route G path.

Definition connected (G : MultiDiGraph) (u v : node) : Prop :=
  exists path, leads G u v path.

(** The shape [MultiDiGraph] keeps: every node has an adjacency entry, every
    successor is a node, and the dict of the parallel edges between two nodes
    is not empty and holds the attribute dicts of those edges. *)
Record well_formed (G : MultiDiGraph) : Prop := {
  wf_adj : forall n, In n (map fst (nodes G)) -> mem Z.eqb n (adj G) = true;
  wf_succ : forall u items v kd,
      assoc Z.eqb u (adj G) = Some items ->
      In (v, kd) items ->
      In v (map fst (nodes G)) /\
      kd <> [] /\
      Forall (fun kv => exists attrs, snd kv = VDict attrs) kd
}.

(** The adjacency without the edge data: each node with its successors. *)
Definition skeleton (G : MultiDiGraph) : list (node * list node) :=
  map (fun entry => (fst entry, map fst (snd entry))) (adj G).

(** From every node the heuristic towards [target] returns, and its value
    is neither a NaN nor [-inf]: added to [+inf] it gives [+inf].  So the
    nodes store numbers under ["x"] and ["y"], and no square of a difference
    is out of range. *)
Definition calm (w : world) (target : node) : Prop :=
  forall u,
    In u (map fst (nodes (graph w))) ->
    exists h,
      fst (euclidianDistNode u target w) = Ret h /\
      f_add f_inf h = f_inf.

(** The parent links of [explored] point backwards: the keys are pairwise
    different and the parent of the entry at index [i] is a key at a smaller
    index. *)
Definition ordered (explored : list (node * option node)) : Prop :=
  NoDup (map fst explored) /\
  forall i n p,
    nth_error explored i = Some (n, Some p) ->
    exists j, (j < i)%nat /\ nth_error (map fst explored) j = Some p.

(** The nodes of the graph not yet in [enqueued], and the bound on the
    iterations left: each one removes an entry from the queue, and an entry
    enters the queue only with a node that was not in [enqueued]. *)
Definition fresh_nodes (G : MultiDiGraph) (s : search) : list node :=
  filter (fun n => negb (mem Z.eqb n (enqueued s))) (map fst (nodes G)).

Definition budget (G : MultiDiGraph) (s : search) : nat :=
  List.length (queue s) + List.length (fresh_nodes G s).
End Shape.

Section Running.
Context {libm : Libm}.
Existing Instance binary64_on.
Variables (G : MultiDiGraph) (origin target : node).

(** What holds of the search state after the first entry has been taken
    from the queue, while the node [busy] (if any) is being expanded. *)
Record running (busy : option node) (s : search) : Prop := {
  run_origin : assoc Z.eqb origin (explored s) = Some None;
  run_root : forall n, assoc Z.eqb n (explored s) = Some None -> n = origin;
  run_queue : forall e, In e (queue s) ->
      exists p, e_parent e = Some p /\
                mem Z.eqb p (explored s) = true /\
                In (e_node e) (successors G p) /\
                mem Z.eqb (e_node e) (enqueued s) = true /\
                e_dist e = infinity;
  run_cost : forall n q h,
      assoc Z.eqb n (enqueued s) = Some (q, h) -> q = infinity;
  run_once : NoDup (map e_node (queue s));
  run_waiting : forall e, In e (queue s) -> e_node e <> origin ->
      mem Z.eqb (e_node e) (explored s) = false;
  run_found : forall n, mem Z.eqb n (enqueued s) = true ->
      In n (map e_node (queue s)) \/ mem Z.eqb n (explored s) = true;
  run_closed : forall n, mem Z.eqb n (explored s) = true ->
      Some n <> busy ->
      forall v, In v (successors G n) -> mem Z.eqb v (enqueued s) = true;
  run_target : mem Z.eqb target (explored s) = false;
  run_ordered : ordered (explored s);
  run_links : forall n p, In (n, Some p) (explored s) ->
      In n (successors G p);
  run_nodes : forall n, mem Z.eqb n (explored s) = true ->
      In n (map fst (nodes G));
  run_pushed : forall n, mem Z.eqb n (explored s) = true -> n <> origin ->
      mem Z.eqb n (enqueued s) = true
}.

(** The links of a chain of parents, last node first. *)
Fixpoint linked (chain : list node) : Prop :=
  match chain with
  | a :: (b :: _) as rest => In a (successors G b) /\ linked rest
  | _ => True
  end.
End Running.

(** ** [searchNodeName] and the colours of [showMap] *)

Section Lookups.
Context {F : PyFloat}.

(** *** [searchNodeName] (GPS.py, lines 93-98) *)

(** [for node, data in G.nodes(data=True): if data.get('name') == name:
    return node], and [None] when the loop runs out. *)
Fixpoint first_named (name : string) (items : list (node * dict))
  : option node :=
  match items with
  | [] => None
  | (n, data) :: rest =>
      if eq_str (get data (KStr "name") VNone) name then Some n
      else first_named name rest
  end.

Definition searchNodeName (name : string) : M (option node) :=
  G <- the_graph ;;
  ret (first_named name (nodes G)).

(** The node's attribute dict gives it the name [name]. *)
Definition named (name : string) (data : dict) : Prop :=
  assoc key_eqb (KStr "name") data = Some (VStr name).

(** What node [n] stores under [attr], if [n] is a node and has it. *)
Definition stored (w : world) (n : node) (attr : string) : option pyval :=
  match assoc Z.eqb n (nodes (graph w)) with
  | Some data => assoc key_eqb (KStr attr) data
  | None => None
  end.

(** *** The colour of an edge in [showMap] (GPS.py, line 51) *)

(** [c.lower()] on an ASCII character; the others are left alone (none of
    them lowercases to a letter of ["yes"]). *)
Definition lower_char (ch : ascii) : ascii :=
  let n := nat_of_ascii ch in
  if Nat.leb 65 n && Nat.leb n 90 then ascii_of_nat (n + 32) else ch.

Fixpoint lower (s : string) : string :=
  match s with
  | EmptyString => EmptyString
  | String ch rest => String (lower_char ch) (lower rest)
  end.

(** The spellings that [lower] turns into ["yes"]. *)
Definition spelled_yes : list string :=
  ["yes"; "yeS"; "yEs"; "yES"; "Yes"; "YeS"; "YEs"; "YES"].

Section Colour.
(** [str(x)] for a value that is not a string. *)
Variable repr : pyval -> string.

Definition py_str (x : pyval) : string :=
  match x with
  | VStr s => s
  | _ => repr x
  end.

(** [lambda x: "green" if str(x).lower() == "yes" else "gray"] *)
Definition wheelchair_colour (x : pyval) : string :=
  if String.eqb (lower (py_str x)) "yes" then "green" else "gray".
End Colour.
End Lookups.

(** ** The order in which the search meets the nodes *)

Section Levels.
Context {libm : Libm}.
Existing Instance binary64_on.
Variables (G : MultiDiGraph) (origin : node).

(** [k] edges, one after the other, lead from the origin to [v]. *)
Fixpoint steps (k : nat) (v : node) : Prop :=
  match k with
  | O => v = origin
  | S k' => exists u, steps k' u /\ In v (successors G u)
  end.

(** The level given to each explored node: the number of parent links from
    it back to the origin. *)
Variable lvl : node -> nat.

(** The level an entry of the queue will give its node: one more than its
    parent's. *)
Definition qlvl (e : entry) : nat :=
  match e_parent e with
  | Some p => S (lvl p)
  | None => O
  end.

(** What holds of the levels while every priority in the queue is [+inf]:
    the queue is in the order of the counter, so first in, first out; it
    holds entries of level [lo] followed by entries of level [lo + 1]; and
    no node is reached from the origin by fewer edges than its level. *)
Record levels (lo : nat) (s : search) : Prop := {
  lv_origin : lvl origin = O;
  lv_parent : forall n p, In (n, Some p) (explored s) -> lvl n = S (lvl p);
  lv_explored : forall n k,
      mem Z.eqb n (explored s) = true -> steps k n -> (lvl n <= k)%nat;
  lv_queue : forall e k,
      In e (queue s) -> e_node e <> origin -> steps k (e_node e) ->
      (qlvl e <= k)%nat;
  lv_prio : forall e, In e (queue s) -> e_prio e = infinity;
  lv_count : StronglySorted lt (map e_count (queue s));
  lv_next : forall e, In e (queue s) -> (e_count e < c s)%nat;
  lv_band : exists A B,
      queue s = (A ++ B)%list /\
      (forall e, In e A -> qlvl e = lo) /\
      (forall e, In e B -> qlvl e = S lo)
}.
End Levels.

Section Twin.
Context {F : PyFloat}.

(** Two states of the search that differ at most in the costs and heuristic
    values kept in [enqueued]. *)
Definition twin (s1 s2 : search) : Prop :=
  c s1 = c s2 /\
  queue s1 = queue s2 /\
  explored s1 = explored s2 /\
  map fst (enqueued s1) = map fst (enqueued s2).
End Twin.

Section MoreMaps.
Existing Instance binary64.

(** The map [one_street] with a destination that stores no position. *)
Definition unsited_end : world :=
  map_of [(1, at_xy 0 0); (2, [])]
         [(1, [(2, one_edge (street "yes" 5))]); (2, [])].

(** The streets of [detour] with the three nodes on one spot. *)
Definition detour_folded : world :=
  map_of [(1, at_xy 0 0); (2, at_xy 0 0); (3, at_xy 0 0)]
         (adj (graph detour)).
End MoreMaps.
(** ** Facts that hold on every platform *)

Create HintDb keeps.

Section Facts.
Context {F : PyFloat}.

Section Keeps.
Variables (B : Type) (proj : world -> B).

Lemma keeps_ret A (a : A) : keeps proj (ret a).
Proof. intro w; reflexivity. Qed.

Lemma keeps_raise A e : keeps proj (@raise F A e).
Proof. intro w; reflexivity. Qed.

Lemma keeps_out_of_fuel A : keeps proj (@out_of_fuel F A).
Proof. intro w; reflexivity. Qed.

Lemma keeps_the_graph : keeps proj the_graph.
Proof. intro w; reflexivity. Qed.

Lemma keeps_bind A C (m : M A) (k : A -> M C) :
  keeps proj m -> (forall a, keeps proj (k a)) -> keeps proj (bind m k).
Proof.
  intros Hm Hk w. unfold bind. specialize (Hm w).
  destruct (m w) as [[a | e |] w']; simpl in *; [rewrite Hk |..]; assumption.
Qed.

Lemma keeps_getitem K V (eqb : K -> K -> bool) (d : list (K * V)) k :
  keeps proj (getitem eqb d k).
Proof.
  unfold getitem. destruct (assoc eqb k d); [apply keeps_ret | apply keeps_raise].
Qed.

Lemma keeps_try_except A (m handler : M A) e :
  keeps proj m -> keeps proj handler -> keeps proj (try_except m e handler).
Proof.
  intros Hm Hh w. unfold try_except. specialize (Hm w).
  destruct (m w) as [[a | e' |] w']; simpl in *; try assumption.
  destruct (exn_eqb e' e); simpl; [rewrite Hh |]; assumption.
Qed.
End Keeps.

Lemma keeps_graph_print s : keeps graph (print s).
Proof. intro w; reflexivity. Qed.

#[local] Hint Resolve keeps_ret keeps_raise keeps_out_of_fuel keeps_the_graph
  keeps_getitem keeps_graph_print : keeps.

Ltac keeps_step :=
  first [ apply keeps_bind; [| intro ] | solve [ auto with keeps ] ].

Lemma keeps_node_attr B (proj : world -> B) u attr :
  keeps proj (node_attr u attr).
Proof. unfold node_attr. repeat keeps_step. Qed.

Lemma keeps_py_sub B (proj : world -> B) a b : keeps proj (py_sub a b).
Proof. destruct a, b; simpl; auto with keeps. Qed.

Lemma keeps_sq B (proj : world -> B) x : keeps proj (sq x).
Proof. unfold sq. destruct (f_pow2 x); auto with keeps. Qed.

Lemma keeps_py_sqrt B (proj : world -> B) x : keeps proj (py_sqrt x).
Proof.
  unfold py_sqrt.
  destruct (negb (f_eqb (f_sqrt x) (f_sqrt x)) && f_eqb x x); auto with keeps.
Qed.

Lemma keeps_arithmetic B (proj : world -> B) x1 y1 x2 y2 :
  keeps proj (dx <- py_sub x1 x2 ;;
              a <- sq dx ;;
              dy <- py_sub y1 y2 ;;
              b <- sq dy ;;
              py_sqrt (f_add a b)).
Proof.
  repeat first [ apply keeps_py_sub | apply keeps_sq | apply keeps_py_sqrt
               | keeps_step ].
Qed.

Lemma keeps_euclidianDistNode B (proj : world -> B) u v :
  keeps proj (euclidianDistNode u v).
Proof.
  unfold euclidianDistNode.
  repeat first [ apply keeps_node_attr | apply keeps_py_sub | apply keeps_sq
               | apply keeps_py_sqrt | keeps_step ].
Qed.

Section KeepsAstar.
Variables (B : Type) (proj : world -> B).
Variable heuristic : node -> node -> M num.
Variable weight : node -> node -> dict -> M pyval.
Variable target : node.
Hypothesis heuristic_keeps : forall u v, keeps proj (heuristic u v).
Hypothesis weight_keeps : forall u v d, keeps proj (weight u v d).

Lemma keeps_relax curnode dist items :
  forall s, keeps proj (relax heuristic weight target curnode dist items s).
Proof.
  induction items as [| [neighbor w] rest IH]; intro s; simpl.
  - apply keeps_ret.
  - apply keeps_bind; [apply weight_keeps |].
    intros [| t | cost | d]; auto using keeps_raise.
    destruct (assoc Z.eqb neighbor (enqueued s)) as [[qcost h] |].
    + destruct (f_leb qcost (f_add dist cost)); apply IH.
    + apply keeps_bind; [apply heuristic_keeps | intro; apply IH].
Qed.

Lemma keeps_walk_back fuel explored :
  forall n path, keeps proj (walk_back fuel explored n path).
Proof.
  induction fuel as [| fuel IH]; intros [n |] path; simpl;
    auto using keeps_ret, keeps_out_of_fuel.
  apply keeps_bind; [apply keeps_getitem | intro; apply IH].
Qed.

Lemma keeps_astar_loop fuel :
  forall s, keeps proj (astar_loop heuristic weight target fuel s).
Proof.
  induction fuel as [| fuel IH]; intro s; simpl.
  - apply keeps_out_of_fuel.
  - destruct (heappop (queue s)) as [[top q'] |]; [| apply keeps_raise].
    destruct (Z.eqb (e_node top) target).
    + apply keeps_bind; [apply keeps_walk_back | intro; apply keeps_ret].
    + assert (Hexpand : forall s0,
                 keeps proj
                   (G <- the_graph ;;
                    items <- getitem Z.eqb (adj G) (e_node top) ;;
                    s' <- relax heuristic weight target (e_node top)
                            (e_dist top) items s0 ;;
                    astar_loop heuristic weight target fuel s')).
      { intro s0. apply keeps_bind; [apply keeps_the_graph | intro G].
        apply keeps_bind; [apply keeps_getitem | intro items].
        apply keeps_bind; [apply keeps_relax | intro; apply IH]. }
      destruct (assoc Z.eqb (e_node top) (explored s)) as [[p |] |]; simpl.
      * apply keeps_bind; [apply keeps_getitem | intros [qcost h]].
        destruct (f_ltb qcost (e_dist top)); [apply IH | apply Hexpand].
      * apply IH.
      * apply Hexpand.
Qed.

Lemma keeps_astar_path fuel source :
  keeps proj (astar_path heuristic weight target fuel source).
Proof.
  unfold astar_path. apply keeps_bind; [apply keeps_the_graph | intro G].
  destruct (negb (mem Z.eqb source (nodes G))); [apply keeps_raise |].
  destruct (negb (mem Z.eqb target (nodes G))); [apply keeps_raise |].
  apply keeps_astar_loop.
Qed.
End KeepsAstar.
End Facts.

Section Claims.
Context {F : PyFloat}.

Lemma mem_In (V : Type) (n : node) (d : list (node * V)) :
  mem Z.eqb n d = true <-> In n (map fst d).
Proof.
  unfold mem. induction d as [| [k v] d IH]; simpl.
  - split; [discriminate | tauto].
  - destruct (Z.eqb_spec n k) as [-> | Hne].
    + split; auto.
    + rewrite IH. split; [tauto | intros [Heq | Hin]; [congruence | assumption]].
Qed.

Lemma mem_not_In (V : Type) (n : node) (d : list (node * V)) :
  mem Z.eqb n d = false <-> ~ In n (map fst d).
Proof.
  rewrite <- mem_In. destruct (mem Z.eqb n d); split; congruence.
Qed.

Lemma key_eqb_eq (a b : key) : key_eqb a b = true <-> a = b.
Proof.
  destruct a as [x | s], b as [y | t]; simpl;
    rewrite ?Z.eqb_eq, ?String.eqb_eq;
    split; intro H; try discriminate H; congruence.
Qed.

(** The test [data.get("wheelchair") == "yes"] succeeds exactly on the
    accessible edges. *)
Lemma wheelchair_test (attrs : dict) :
  eq_str (get attrs (KStr "wheelchair") VNone) "yes" = true <-> accessible attrs.
Proof.
  unfold accessible, get.
  destruct (assoc key_eqb (KStr "wheelchair") attrs) as [[| s | x | d] |]; simpl;
    try (split; [discriminate | congruence]).
  rewrite String.eqb_eq. split; [intros -> | intros [= ->]]; reflexivity.
Qed.

Lemma costWheelchair_accessible (u v : node) (attrs : dict) :
  accessible attrs ->
  costWheelchair u v attrs = get attrs (KStr "length") (VNum f_one).
Proof.
  intro H. apply wheelchair_test in H. unfold costWheelchair. now rewrite H.
Qed.

Lemma costWheelchair_not_accessible (u v : node) (attrs : dict) :
  ~ accessible attrs -> costWheelchair u v attrs = VNum f_inf.
Proof.
  intro H. unfold costWheelchair.
  destruct (eq_str (get attrs (KStr "wheelchair") VNone) "yes") eqn:E;
    [apply wheelchair_test in E; contradiction | reflexivity].
Qed.

(** The dict of parallel edges never passes the test: its values are the
    edges' attribute dicts, and a dict is not the string ["yes"]. *)
Lemma costWheelchair_parallel_edges (u v : node) (kd : dict) :
  Forall (fun kv => exists attrs, snd kv = VDict attrs) kd ->
  costWheelchair u v kd = VNum f_inf.
Proof.
  intro Hkd. apply costWheelchair_not_accessible. unfold accessible.
  induction Hkd as [| [k x] kd [attrs Hx] _ IH]; cbn [assoc]; [discriminate |].
  cbn [snd] in Hx; subst x.
  destruct (key_eqb (KStr "wheelchair") k); [discriminate | exact IH].
Qed.

(** What [networkx.astar_path] passes to a callable weight on a
    [MultiDiGraph] is the dict of the parallel edges between the two nodes,
    edge key to attribute dict; on it [costWheelchair] returns [+inf]
    whatever the attributes of the edges. *)
Theorem costWheelchair_on_multigraph (u v : node) (kd : dict) :
  Forall (fun kv => exists attrs, snd kv = VDict attrs) kd ->
  costWheelchair u v kd = VNum f_inf.
Proof. apply costWheelchair_parallel_edges. Qed.

(** C5. A call whose origin or destination is not a node of the graph ends
    in the exception [NodeNotFound], raised before the search starts and not
    caught by [wheelchairPath]; nothing is printed and the outcome is not the
    empty path that reports an unreachable destination. *)
Theorem wheelchairPath_absent_node (fuel : nat) (origin endpoint : node)
        (w : world) :
  ~ In origin (map fst (nodes (graph w))) \/
  ~ In endpoint (map fst (nodes (graph w))) ->
  wheelchairPath fuel origin endpoint w = (Raise NodeNotFound, w) /\
  fst (wheelchairPath fuel origin endpoint w) <> Ret [].
Proof.
  intro H.
  assert (E : wheelchairPath fuel origin endpoint w = (Raise NodeNotFound, w)).
  { unfold wheelchairPath, try_except, astar_path, bind, the_graph.
    destruct (mem Z.eqb origin (nodes (graph w))) eqn:Ho; simpl; [| reflexivity].
    destruct (mem Z.eqb endpoint (nodes (graph w))) eqn:He; simpl; [| reflexivity].
    apply mem_In in Ho, He. tauto. }
  split; [exact E | rewrite E; discriminate].
Qed.

(** [euclidianDistNode] as a function of what the two nodes store: the four
    lookups come first, then the arithmetic from left to right. *)
Lemma euclidianDistNode_eval (u v : node) (w : world) :
  euclidianDistNode u v w =
    (match stored w u "x", stored w u "y", stored w v "x", stored w v "y" with
     | Some x1, Some y1, Some x2, Some y2 =>
         fst ((dx <- py_sub x1 x2 ;;
               a <- sq dx ;;
               dy <- py_sub y1 y2 ;;
               b <- sq dy ;;
               py_sqrt (f_add a b)) w)
     | _, _, _, _ => Raise KeyError
     end, w).
Proof.
  unfold stored, euclidianDistNode, node_attr.
  unfold bind at 1. unfold bind at 1. unfold the_graph at 1.
  unfold bind at 1. unfold getitem at 1.
  destruct (assoc Z.eqb u (nodes (graph w))) as [du |] eqn:Hu;
    [| reflexivity].
  unfold ret at 1. unfold getitem at 1.
  destruct (assoc key_eqb (KStr "x") du) as [x1 |]; [| reflexivity].
  unfold ret at 1.
  unfold bind at 1. unfold bind at 1. unfold the_graph at 1.
  unfold bind at 1. unfold getitem at 1. rewrite Hu.
  unfold ret at 1. unfold getitem at 1.
  destruct (assoc key_eqb (KStr "y") du) as [y1 |]; [| reflexivity].
  unfold ret at 1.
  unfold bind at 1. unfold bind at 1. unfold the_graph at 1.
  unfold bind at 1. unfold getitem at 1.
  destruct (assoc Z.eqb v (nodes (graph w))) as [dv |] eqn:Hv;
    [| reflexivity].
  unfold ret at 1. unfold getitem at 1.
  destruct (assoc key_eqb (KStr "x") dv) as [x2 |]; [| reflexivity].
  unfold ret at 1.
  unfold bind at 1. unfold bind at 1. unfold the_graph at 1.
  unfold bind at 1. unfold getitem at 1. rewrite Hv.
  unfold ret at 1. unfold getitem at 1.
  destruct (assoc key_eqb (KStr "y") dv) as [y2 |]; [| reflexivity].
  unfold ret at 1.
  match goal with
  | |- ?m w = _ => rewrite (surjective_pairing (m w))
  end.
  f_equal. exact (keeps_arithmetic (fun w => w) x1 y1 x2 y2 w).
Qed.




(** C8. With origin and destination the same node [n] of the graph, the
    search returns the one-node path [[n]] at the first entry it takes from
    the queue; nothing is printed. *)
Theorem wheelchairPath_same_node (fuel : nat) (n : node) (w : world) :
  In n (map fst (nodes (graph w))) ->
  wheelchairPath (S fuel) n n w = (Ret [n], w).
Proof.
  intro H. apply mem_In in H.
  unfold wheelchairPath, try_except, astar_path, bind, the_graph.
  rewrite H. simpl. rewrite Z.eqb_refl. destruct fuel; reflexivity.
Qed.

(** C10. A search leaves the graph as it found it: nodes, edges and all
    their attributes are the same after [wheelchairPath] as before, whatever
    the outcome; so they are after [euclidianDistNode], and [costWheelchair]
    is a function of its arguments. *)
Theorem wheelchairPath_graph_unchanged (fuel : nat) (origin endpoint : node)
        (w : world) :
  graph (snd (wheelchairPath fuel origin endpoint w)) = graph w /\
  forall u v, snd (euclidianDistNode u v w) = w.
Proof.
  split.
  - revert w. change (keeps graph (wheelchairPath fuel origin endpoint)).
    unfold wheelchairPath. apply keeps_try_except.
    + apply keeps_astar_path.
      * intros; apply keeps_euclidianDistNode.
      * intros; apply keeps_ret.
    + apply keeps_bind; [apply keeps_graph_print | intro; apply keeps_ret].
  - intros u v. apply (keeps_euclidianDistNode (fun w => w)).
Qed.

Section CoordsFacts.
Variable nearest_nodes : MultiDiGraph -> num -> num -> outcome node.

(** C9. [pathFromCoords] looks up the origin and the destination with the
    same arguments [(y1, x1)]: it is the search from the node found to that
    same node, its result does not depend on [x2] and [y2], and when the
    lookup finds a node [n] of the graph the result is the one-node path
    [[n]]. *)
Theorem pathFromCoords_ignores_destination (fuel : nat) (x1 y1 x2 y2 : num)
        (w : world) :
  pathFromCoords nearest_nodes fuel x1 y1 x2 y2 w =
    (n <- nearest nearest_nodes y1 x1 ;; wheelchairPath fuel n n) w /\
  (forall x2' y2',
      pathFromCoords nearest_nodes fuel x1 y1 x2' y2' w =
      pathFromCoords nearest_nodes fuel x1 y1 x2 y2 w) /\
  (forall n,
      nearest_nodes (graph w) y1 x1 = Ret n ->
      In n (map fst (nodes (graph w))) ->
      pathFromCoords nearest_nodes (S fuel) x1 y1 x2 y2 w = (Ret [n], w)).
Proof.
  split; [| split].
  - unfold pathFromCoords, nearest, bind.
    destruct (nearest_nodes (graph w) y1 x1); reflexivity.
  - reflexivity.
  - intros n Hn Hin. unfold pathFromCoords, nearest, bind. rewrite Hn.
    apply mem_In in Hin.
    unfold wheelchairPath, try_except, astar_path, bind, the_graph.
    rewrite Hin. simpl. rewrite Z.eqb_refl. destruct fuel; reflexivity.
Qed.
End CoordsFacts.
End Claims.

(** ** The program on the small maps *)

(** Inversion of an edge of a concrete map. *)
Ltac pick_key H :=
  repeat match type of H with
         | (if Z.eqb ?a ?b then _ else _) = _ =>
             let E := fresh "E" in
             destruct (Z.eqb_spec a b) as [E | E];
             [ try discriminate E; subst
             | try (exfalso; apply E; reflexivity) ]
         | (if key_eqb ?a ?b then _ else _) = _ =>
             let E := fresh "E" in
             destruct (key_eqb a b) eqn:E; [apply key_eqb_eq in E; subst |]
         | None = Some _ => discriminate H
         | Some _ = Some _ => injection H as H
         | _ => progress cbn [assoc] in H
         end.

Ltac edge_cases H :=
  lazymatch type of H with
  | edge (graph ?m) _ _ _ _ =>
      let succ := fresh "succ" in
      let kd := fresh "kd" in
      let Hs := fresh "Hs" in
      let Hk := fresh "Hk" in
      let Ha := fresh "Ha" in
      destruct H as (succ & kd & Hs & Hk & Ha);
      cbv delta [m map_of] in Hs;
      cbn [graph adj] in Hs;
      pick_key Hs; subst succ; pick_key Hk; subst kd;
      unfold one_edge in Ha; pick_key Ha; subst
  end.

Section Binary64.
Existing Instance binary64.

Lemma one_is_finite : 1%float <> infinity.
Proof.
  intro E. assert (H : PrimFloat.ltb 1 infinity = true) by reflexivity.
  rewrite E in H. discriminate H.
Qed.

(** C2. [costWheelchair] returns the edge's [length] when its [wheelchair]
    attribute is exactly ["yes"], 1 when that edge has no [length], and
    [+inf] for every other edge; so when the length is absent or a finite
    number that is not negative, the cost is a number that is not negative,
    and it is [+inf] exactly when the edge is not accessible. *)
Theorem costWheelchair_spec (u v : node) (attrs : dict) :
  (accessible attrs ->
   forall l, assoc key_eqb (KStr "length") attrs = Some l ->
             costWheelchair u v attrs = l) /\
  (accessible attrs ->
   assoc key_eqb (KStr "length") attrs = None ->
   costWheelchair u v attrs = VNum 1%float) /\
  (~ accessible attrs -> costWheelchair u v attrs = VNum infinity) /\
  (length_in_range attrs ->
   exists cost, costWheelchair u v attrs = VNum cost /\
                PrimFloat.leb 0 cost = true /\
                (cost = infinity <-> ~ accessible attrs)).
Proof.
  split; [| split; [| split]].
  - intros Ha l Hl. rewrite (costWheelchair_accessible u v Ha).
    unfold get. now rewrite Hl.
  - intros Ha Hl. rewrite (costWheelchair_accessible u v Ha).
    unfold get. now rewrite Hl.
  - intro Hn. exact (costWheelchair_not_accessible u v Hn).
  - intro Hrange.
    destruct (eq_str (get attrs (KStr "wheelchair") VNone) "yes") eqn:Htest.
    + apply wheelchair_test in Htest.
      rewrite (costWheelchair_accessible u v Htest).
      unfold length_in_range in Hrange. unfold get.
      destruct (assoc key_eqb (KStr "length") attrs) as [[| s | l | d] |];
        try contradiction.
      * destruct Hrange as [Hpos Hfin]. exists l. repeat split; auto.
        -- intros ->. discriminate Hfin.
        -- intro Hn. contradiction.
      * exists 1%float. repeat split; auto.
        -- intro E. now apply one_is_finite in E.
        -- intro Hn. contradiction.
    + assert (Hn : ~ accessible attrs).
      { intro Ha. apply wheelchair_test in Ha. congruence. }
      rewrite (costWheelchair_not_accessible u v Hn).
      exists infinity. repeat split; auto.
Qed.

(** The three kinds of edge. *)
Example costWheelchair_runs :
  costWheelchair 1 2 (street "yes" 5) = VNum 5%float /\
  costWheelchair 1 2 [(KStr "wheelchair", VStr "yes")] = VNum 1%float /\
  costWheelchair 1 2 (street "no" 5) = VNum infinity /\
  costWheelchair 1 2 (untagged 5) = VNum infinity.
Proof. repeat split. Qed.

(** C1, at the two-node map whose only street is not accessible: no
    accessible path leads from 1 to 2 and the street costs [+inf], yet the
    search returns the path over it and prints nothing. *)
Theorem closed_street_is_taken (fuel : nat) :
  (forall hops, walk (graph closed_street) 1 hops 2 -> ~ all_accessible hops) /\
  (forall k attrs, edge (graph closed_street) 1 2 k attrs ->
                   costWheelchair 1 2 attrs = VNum infinity) /\
  wheelchairPath (3 + fuel) 1 2 closed_street = (Ret [1; 2], closed_street).
Proof.
  split; [| split].
  - intros [| [[n k] attrs] rest]; cbn [walk].
    + discriminate.
    + intros [He _] Hacc. apply Forall_inv in Hacc. cbn [snd] in Hacc.
      edge_cases He. discriminate Hacc.
  - intros k attrs He. edge_cases He. reflexivity.
  - destruct fuel; vm_compute; reflexivity.
Qed.

(** C4, at a three-node map whose second street carries no [wheelchair]
    tag: no chain of accessible streets joins 1 to 3, and the search returns
    the path over the untagged street instead of the empty path. *)
Theorem untagged_link_is_taken (fuel : nat) :
  (forall hops, walk (graph untagged_link) 1 hops 3 -> ~ all_accessible hops) /\
  wheelchairPath (5 + fuel) 1 3 untagged_link = (Ret [1; 2; 3], untagged_link).
Proof.
  split.
  - intros [| [[n k] attrs] rest]; cbn [walk]; [discriminate |].
    intros [He Hw] Hacc. edge_cases He.
    destruct rest as [| [[n' k'] attrs'] rest']; cbn [walk] in Hw;
      [discriminate |].
    destruct Hw as [He' _]. edge_cases He'.
    apply Forall_inv_tail, Forall_inv in Hacc. discriminate Hacc.
  - destruct fuel; vm_compute; reflexivity.
Qed.

(** One step of a path on a concrete map. *)
Ltac walk_cases H :=
  match type of H with
  | walk _ _ ?hops _ =>
      let n := fresh "n" in
      let k := fresh "k" in
      let a := fresh "a" in
      let He := fresh "He" in
      destruct hops as [| [[n k] a] hops]; cbn [walk] in H;
      [ try discriminate H; try subst
      | destruct H as [He H]; edge_cases He ]
  end.

Ltac settle Hh Hc :=
  vm_compute in Hh; vm_compute in Hc;
  try discriminate Hh;
  injection Hh as <-; injection Hc as <-; reflexivity.

(** On the triangle map the heuristic is a lower bound for every path. *)
Lemma detour_admissible : admissible detour.
Proof.
  intros u v hops h cost Hw _ Hh Hc.
  walk_cases Hw.
  - unfold euclidianDistNode, node_attr, getitem, bind, the_graph in Hh.
    cbn [graph nodes detour map_of assoc] in Hh.
    destruct (Z.eqb_spec v 1) as [-> | ?]; [settle Hh Hc |].
    destruct (Z.eqb_spec v 2) as [-> | ?]; [settle Hh Hc |].
    destruct (Z.eqb_spec v 3) as [-> | ?]; [settle Hh Hc |].
    discriminate Hh.
  - walk_cases Hw; settle Hh Hc.
  - walk_cases Hw; [settle Hh Hc |]. walk_cases Hw; settle Hh Hc.
  - walk_cases Hw; settle Hh Hc.
Qed.

(** C3, at the triangle map: every street is accessible and at least as long
    as the straight line between its ends, the way over node 2 costs 7, and
    the search returns the direct street of length 100.  The weight the
    search computes for that street, from the dict of the parallel edges
    between 1 and 3, is [+inf]. *)
Theorem detour_returns_the_long_way (fuel : nat) :
  wheelchairPath (3 + fuel) 1 3 detour = (Ret [1; 3], detour) /\
  (forall k attrs, edge (graph detour) 1 3 k attrs ->
                   [(3, k, attrs)] = long_way) /\
  total_cost 1 long_way = Some 100%float /\
  walk (graph detour) 1 short_way 3 /\
  all_accessible short_way /\
  total_cost 1 short_way = Some 7%float /\
  PrimFloat.ltb 7 100 = true /\
  admissible detour /\
  costWheelchair 1 3 (one_edge (street "yes" 100)) = VNum infinity.
Proof.
  repeat split.
  - destruct fuel; vm_compute; reflexivity.
  - intros k attrs He. edge_cases He. reflexivity.
  - do 2 eexists. repeat split.
  - do 2 eexists. repeat split.
  - repeat constructor.
  - apply detour_admissible.
Qed.


(** A street that is accessible is found: the two-node map returns the path
    over its street. *)
Example one_street_is_found :
  wheelchairPath 3 1 2 one_street = (Ret [1; 2], one_street).
Proof. vm_compute. reflexivity. Qed.

(** With no street at all the search prints its message and returns the
    empty path. *)
Example islands_are_apart :
  wheelchairPath 2 1 2 islands =
    (Ret [],
     {| graph := graph islands;
        stdout := ["No path found that is wheelchair accessible."] |}).
Proof. vm_compute. reflexivity. Qed.

Lemma wheelchairPath_absent_node_witness :
  wheelchairPath 5 7 1 islands = (Raise NodeNotFound, islands) /\
  fst (wheelchairPath 5 7 1 islands) <> Ret [].
Proof.
  apply wheelchairPath_absent_node. left. simpl.
  intros [H | [H | []]]; discriminate H.
Defined.




(** Streets as long as the distances computed between their ends are not
    enough: on the three nodes in line the two streets add up to one unit in
    the last place less than the heuristic from the first node to the
    third. *)
Example in_line_not_admissible :
  fst (euclidianDistNode 1 2 in_line) = Ret 0x1.646d3ce7384f6p+5%float /\
  fst (euclidianDistNode 2 3 in_line) = Ret 0x1.646d3ce7384f6p+6%float /\
  ~ admissible in_line.
Proof.
  split; [reflexivity |]. split; [reflexivity |].
  intro H.
  specialize (H 1 3
                [(2, KInt 0, street "yes" 0x1.646d3ce7384f6p+5);
                 (3, KInt 0, street "yes" 0x1.646d3ce7384f6p+6)]
                0x1.0b51edad6a3b9p+7%float 0x1.0b51edad6a3b8p+7%float).
  assert (Hle : PrimFloat.leb 0x1.0b51edad6a3b9p+7 0x1.0b51edad6a3b8p+7 = true);
    [| discriminate Hle].
  apply H.
  - split; [do 2 eexists; repeat split |].
    split; [do 2 eexists; repeat split | reflexivity].
  - repeat constructor.
  - reflexivity.
  - reflexivity.
Qed.

Lemma costWheelchair_on_multigraph_witness :
  costWheelchair 1 3 (one_edge (street "yes" 100)) = VNum infinity.
Proof.
  apply (@costWheelchair_on_multigraph binary64 1 3).
  repeat constructor. eexists. reflexivity.
Defined.

Lemma wheelchairPath_same_node_witness :
  wheelchairPath 1 2 2 islands = (Ret [2], islands).
Proof.
  apply wheelchairPath_same_node. simpl. right. left. reflexivity.
Defined.

Lemma pathFromCoords_ignores_destination_witness :
  pathFromCoords first_node 1 0%float 0%float 3%float 4%float islands =
    (Ret [1], islands).
Proof.
  apply (pathFromCoords_ignores_destination first_node 0 0%float 0%float
           3%float 4%float islands); [reflexivity | simpl; auto].
Defined.
End Binary64.

(** ** Dicts and the queue *)

Unset Implicit Arguments.

Section AssocFacts.
Variable V : Type.
Implicit Types (d : list (node * V)) (n k : node) (v : V).

Lemma assoc_In n v d : assoc Z.eqb n d = Some v -> In (n, v) d.
Proof.
  induction d as [| [k x] d IH]; simpl; [discriminate |].
  destruct (Z.eqb_spec n k) as [-> | _].
  - intros [= ->]. now left.
  - intro H. right. now apply IH.
Qed.

Lemma In_assoc n v d :
  NoDup (map fst d) -> In (n, v) d -> assoc Z.eqb n d = Some v.
Proof.
  induction d as [| [k x] d IH]; simpl; [tauto |].
  intros Hnd [[= -> ->] | Hin].
  - now rewrite Z.eqb_refl.
  - inversion Hnd as [| ? ? Hk Hd]; subst.
    destruct (Z.eqb_spec n k) as [-> | _]; [| now apply IH].
    exfalso. apply Hk. now apply (in_map fst) in Hin.
Qed.

Lemma mem_setitem n k v d :
  mem Z.eqb k (setitem Z.eqb n v d) = Z.eqb k n || mem Z.eqb k d.
Proof.
  unfold mem. induction d as [| [k' x] d IH]; simpl.
  - destruct (Z.eqb k n); reflexivity.
  - destruct (Z.eqb_spec n k') as [-> | Hn]; simpl.
    + destruct (Z.eqb k k'); reflexivity.
    + destruct (Z.eqb_spec k k') as [-> | Hk].
      * now rewrite orb_true_r.
      * exact IH.
Qed.

Lemma mem_setitem_other n k v d :
  k <> n -> mem Z.eqb k (setitem Z.eqb n v d) = mem Z.eqb k d.
Proof.
  intro H. rewrite mem_setitem. apply Z.eqb_neq in H. now rewrite H.
Qed.

Lemma assoc_setitem_same n v d : assoc Z.eqb n (setitem Z.eqb n v d) = Some v.
Proof.
  induction d as [| [k' x] d IH]; simpl.
  - now rewrite Z.eqb_refl.
  - destruct (Z.eqb_spec n k') as [-> | Hn]; simpl.
    + now rewrite Z.eqb_refl.
    + destruct (Z.eqb_spec n k'); [contradiction | exact IH].
Qed.

Lemma assoc_setitem_other n k v d :
  k <> n -> assoc Z.eqb k (setitem Z.eqb n v d) = assoc Z.eqb k d.
Proof.
  intro Hkn. induction d as [| [k' x] d IH]; simpl.
  - destruct (Z.eqb_spec k n); [contradiction | reflexivity].
  - destruct (Z.eqb_spec n k') as [-> | Hn]; simpl.
    + destruct (Z.eqb_spec k k'); [contradiction | reflexivity].
    + destruct (Z.eqb k k'); [reflexivity | exact IH].
Qed.

(** Setting a key that is not there appends the binding. *)
Lemma setitem_fresh n v d :
  mem Z.eqb n d = false -> setitem Z.eqb n v d = (d ++ [(n, v)])%list.
Proof.
  unfold mem. induction d as [| [k' x] d IH]; simpl; [reflexivity |].
  destruct (Z.eqb n k'); [discriminate |].
  intro H. now rewrite IH.
Qed.

Lemma mem_assoc n d :
  mem Z.eqb n d = true <-> exists v, assoc Z.eqb n d = Some v.
Proof.
  unfold mem. destruct (assoc Z.eqb n d) as [v |].
  - split; eauto.
  - split; [discriminate | intros [v [=]]].
Qed.
End AssocFacts.

Section QueueFacts.
Context {F : PyFloat}.

Lemma heappop_empty (q : list entry) : heappop q = None <-> q = [].
Proof.
  destruct q as [| x q]; simpl; [tauto |].
  destruct (heappop q) as [[m r] |]; [destruct (entry_ltb m x) |];
    split; discriminate.
Qed.

(** [heappop] takes one entry out and leaves the others. *)
Lemma heappop_perm (q : list entry) (m : entry) (r : list entry) :
  heappop q = Some (m, r) -> Permutation q (m :: r).
Proof.
  revert m r. induction q as [| x q IH]; intros m r; simpl; [discriminate |].
  destruct (heappop q) as [[m' r'] |] eqn:E.
  - specialize (IH m' r' eq_refl).
    destruct (entry_ltb m' x); intros [= <- <-].
    + rewrite IH. apply perm_swap.
    + reflexivity.
  - apply heappop_empty in E. subst q. intros [= <- <-]. reflexivity.
Qed.
End QueueFacts.

(** ** What the search does on a multigraph *)

Section ListFacts.
Variable A : Type.

Lemma filter_length_mono (f g : A -> bool) (l : list A) :
  (forall x, g x = true -> f x = true) ->
  (List.length (filter g l) <= List.length (filter f l))%nat.
Proof.
  intro Hgf. induction l as [| x l IH]; simpl; [lia |].
  destruct (g x) eqn:Hg.
  - rewrite (Hgf x Hg). simpl. lia.
  - destruct (f x); simpl; lia.
Qed.

Lemma filter_length_drop (f g : A -> bool) (l : list A) (a : A) :
  (forall x, g x = true -> f x = true) ->
  In a l -> f a = true -> g a = false ->
  (List.length (filter g l) < List.length (filter f l))%nat.
Proof.
  intros Hgf Hin Hfa Hga. induction l as [| x l IH]; simpl; [contradiction |].
  pose proof (filter_length_mono f g l Hgf) as Hle.
  destruct Hin as [-> | Hin].
  - rewrite Hfa, Hga. simpl. lia.
  - specialize (IH Hin). destruct (g x) eqn:Hg.
    + rewrite (Hgf x Hg). simpl. lia.
    + destruct (f x); simpl; lia.
Qed.

Lemma last_cons (a d : A) (l : list A) : last (a :: l) d = last l a.
Proof.
  revert a d. induction l as [| b l IH]; intros a d; [reflexivity |].
  change (last (a :: b :: l) d) with (last (b :: l) d).
  now rewrite !IH.
Qed.

Lemma last_snoc (a d : A) (l : list A) : last (l ++ [a]) d = a.
Proof. apply last_last. Qed.
End ListFacts.

Section Reach.
Context {libm : Libm}.
Existing Instance binary64_on.
Variable w : world.
Variables origin target : node.
Hypothesis graph_shape : well_formed (graph w).
Hypothesis target_calm : calm w target.
Hypothesis target_node : In target (map fst (nodes (graph w))).

Local Abbreviation G := (graph w).
Local Abbreviation heuristic := (fun u v : node => euclidianDistNode u v).
Local Abbreviation weight :=
  (fun (u v : node) (data : dict) => ret (costWheelchair u v data)).

Lemma add_inf (dist : float) :
  dist = 0%float \/ dist = infinity -> PrimFloat.add dist infinity = infinity.
Proof. intros [-> | ->]; reflexivity. Qed.

(** From a node of the graph the heuristic towards the target returns, and
    the priority made of it is [+inf]. *)
Lemma heuristic_returns (u : node) :
  In u (map fst (nodes G)) ->
  exists h, euclidianDistNode u target w = (Ret h, w) /\
            PrimFloat.add infinity h = infinity.
Proof.
  intro Hu. destruct (target_calm u Hu) as (h & Hh & Hprio).
  exists h. split; [| exact Hprio].
  rewrite (surjective_pairing (euclidianDistNode u target w)), Hh.
  f_equal. exact (keeps_euclidianDistNode (fun w => w) u target w).
Qed.

Lemma successor_items (u v : node) :
  In v (successors G u) ->
  exists items kd, assoc Z.eqb u (adj G) = Some items /\ In (v, kd) items.
Proof.
  unfold successors. destruct (assoc Z.eqb u (adj G)) as [items |]; [| contradiction].
  intro H. apply in_map_iff in H. destruct H as ([v' kd] & Heq & Hin).
  simpl in Heq. subst v'. eauto.
Qed.

Lemma successor_node (u v : node) :
  In v (successors G u) -> In v (map fst (nodes G)).
Proof.
  intro H. destruct (successor_items u v H) as (items & kd & Hitems & Hin).
  now destruct (@wf_succ _ _ graph_shape u items v kd Hitems Hin).
Qed.

(** A push pays for the room it takes in the queue with a node that is no
    longer fresh. *)
Lemma budget_push (s : search) (v cur : node) (ncost h : float) :
  In v (map fst (nodes G)) ->
  mem Z.eqb v (enqueued s) = false ->
  (budget G (push s v ncost h cur) <= budget G s)%nat.
Proof.
  intros Hv Hfresh. unfold budget, fresh_nodes, push, heappush. simpl.
  rewrite length_app. simpl.
  assert (Hlt : (List.length
                   (filter (fun n => negb (mem Z.eqb n
                                             (setitem Z.eqb v (ncost, h) (enqueued s))))
                           (map fst (nodes G))) <
                 List.length
                   (filter (fun n => negb (mem Z.eqb n (enqueued s)))
                           (map fst (nodes G))))%nat).
  { apply filter_length_drop with (a := v); auto.
    - intros x. rewrite mem_setitem. destruct (Z.eqb x v); simpl; [discriminate | tauto].
    - now rewrite Hfresh.
    - now rewrite mem_setitem, Z.eqb_refl. }
  rewrite <- Nat.add_assoc. apply Nat.add_le_mono_l.
  rewrite Nat.add_1_l. exact Hlt.
Qed.

(** Following the parent links from an explored node reaches the root
    within as many steps as there are entries before it. *)
Lemma walk_back_ordered (explored : list (node * option node)) :
  ordered explored ->
  (forall n p, In (n, Some p) explored -> In n (successors G p)) ->
  forall i n fuel path,
    nth_error (map fst explored) i = Some n ->
    (i < fuel)%nat ->
    exists chain,
      walk_back fuel explored (Some n) path w =
        (Ret (path ++ n :: chain)%list, w) /\
      linked G (n :: chain) /\
      assoc Z.eqb (last chain n) explored = Some None.
Proof.
  intros [Hnd Hback] Hlinks.
  induction i as [i IH] using lt_wf_ind.
  intros n fuel path Hi Hfuel.
  destruct fuel as [| fuel]; [lia |].
  rewrite nth_error_map in Hi.
  destruct (nth_error explored i) as [[n' p] |] eqn:Hentry; [| discriminate].
  simpl in Hi. injection Hi as ->.
  pose proof (nth_error_In _ _ Hentry) as Hin.
  pose proof (In_assoc _ _ _ _ Hnd Hin) as Hassoc.
  cbn [walk_back]. unfold bind, getitem. rewrite Hassoc. cbn.
  destruct p as [p |].
  - destruct (Hback i n p Hentry) as (j & Hj & Hp).
    destruct (IH j Hj p fuel (path ++ [n])%list Hp ltac:(lia))
      as (chain & Hrun & Hlinked & Hroot).
    exists (p :: chain). rewrite Hrun. rewrite <- app_assoc. cbn [app].
    split; [reflexivity | split; [split; auto |]].
    rewrite last_cons. exact Hroot.
  - exists []. split; [| split; [exact I | exact Hassoc]].
    destruct fuel; reflexivity.
Qed.

Lemma linked_route (chain : list node) :
  linked G chain -> route G (rev chain).
Proof.
  induction chain as [| a chain IH]; [exact (fun _ => I) |].
  destruct chain as [| b chain]; [exact (fun _ => I) |].
  intros [Hab Hrest]. specialize (IH Hrest).
  change (rev (a :: b :: chain)) with ((rev (b :: chain)) ++ [a])%list.
  cbn [rev] in *.
  revert IH. generalize (rev chain). intros l IH.
  induction l as [| x l IHl]; simpl.
  - split; [exact Hab | exact I].
  - destruct l as [| y l]; simpl in *.
    + destruct IH as [Hx _]. repeat split; auto.
    + destruct IH as [Hxy Hrest']. split; [exact Hxy | now apply IHl].
Qed.

Lemma mem_false_assoc (V : Type) (n : node) (d : list (node * V)) :
  mem Z.eqb n d = false <-> assoc Z.eqb n d = None.
Proof.
  unfold mem. destruct (assoc Z.eqb n d); split; congruence.
Qed.

(** A push of a node that is not in [enqueued] keeps the state of a running
    search in order. *)
Lemma running_push (busy : option node) (s : search) (v cur : node) (h : float) :
  running G origin target busy s ->
  mem Z.eqb cur (explored s) = true ->
  In v (successors G cur) ->
  mem Z.eqb v (enqueued s) = false ->
  running G origin target busy (push s v infinity h cur).
Proof.
  intros [Ro Rr Rq Rc Rn Rw Rf Rcl Rt Rord Rl Rnd Rp] Hcur Hv Hfresh.
  assert (Hmono : forall n, mem Z.eqb n (enqueued s) = true ->
                            mem Z.eqb n (enqueued (push s v infinity h cur)) = true).
  { intros n Hn. cbn [push enqueued]. rewrite mem_setitem, Hn. apply orb_true_r. }
  assert (Hnew : mem Z.eqb v (enqueued (push s v infinity h cur)) = true).
  { cbn [push enqueued]. now rewrite mem_setitem, Z.eqb_refl. }
  constructor; cbn [push explored queue]; unfold heappush;
    [ exact Ro | exact Rr | | | | | | | exact Rt | exact Rord | exact Rl
      | exact Rnd | ].
  - intros e He. apply in_app_or in He. destruct He as [He | [<- | []]].
    + destruct (Rq e He) as (p & Hp & Hpe & Hs & Hq & Hd).
      exists p. repeat split; auto.
    + exists cur. cbn. repeat split; auto.
  - intros n q h' Hn. cbn [push enqueued] in Hn.
    destruct (Z.eqb_spec n v) as [-> | Hne].
    + rewrite assoc_setitem_same in Hn. now injection Hn as <- _.
    + rewrite assoc_setitem_other in Hn by assumption.
      exact (Rc n q h' Hn).
  - rewrite map_app. cbn. apply NoDup_app; auto.
    + constructor; [intros [] | constructor].
    + intros x Hx [<- | []]. apply in_map_iff in Hx.
      destruct Hx as (e & <- & He).
      destruct (Rq e He) as (p & _ & _ & _ & Hq & _). congruence.
  - intros e He Hne. apply in_app_or in He. destruct He as [He | [<- | []]].
    + exact (Rw e He Hne).
    + cbn in *. destruct (mem Z.eqb v (explored s)) eqn:Hex; [| reflexivity].
      pose proof (Rp v Hex Hne). congruence.
  - intros n Hn. cbn [push enqueued] in Hn. rewrite mem_setitem in Hn.
    rewrite map_app, in_app_iff. cbn.
    destruct (Z.eqb_spec n v) as [E | Hne]; [left; right; left; now symmetry |].
    simpl in Hn. destruct (Rf n Hn); auto.
  - intros n Hn Hbusy x Hx. apply Hmono. exact (Rcl n Hn Hbusy x Hx).
  - intros n Hn Hne. apply Hmono. exact (Rp n Hn Hne).
Qed.

(** The loop over the successors of [cur]: every weight is [+inf], so a
    successor already in [enqueued] is passed over and every other one is
    pushed once. *)
Lemma relax_running (cur : node) (dist : float) (items : list (node * dict)) :
  dist = 0%float \/ dist = infinity ->
  (forall v kd, In (v, kd) items ->
                In v (successors G cur) /\
                Forall (fun kv => exists attrs, snd kv = VDict attrs) kd) ->
  forall s,
    running G origin target (Some cur) s ->
    mem Z.eqb cur (explored s) = true ->
    exists s',
      relax heuristic weight target cur dist items s w = (Ret s', w) /\
      running G origin target (Some cur) s' /\
      (budget G s' <= budget G s)%nat /\
      explored s' = explored s /\
      (forall n, mem Z.eqb n (enqueued s) = true ->
                 mem Z.eqb n (enqueued s') = true) /\
      (forall v kd, In (v, kd) items -> mem Z.eqb v (enqueued s') = true).
Proof.
  intros Hdist. induction items as [| [v kd] items IH]; intros Hitems s R Hcur.
  - exists s. split; [reflexivity |]. split; [exact R |].
    split; [lia |]. split; [reflexivity |].
    split; [auto | intros v kd []].
  - destruct (Hitems v kd (or_introl eq_refl)) as [Hsucc Hkd].
    assert (Hrest : forall v' kd', In (v', kd') items ->
                      In v' (successors G cur) /\
                      Forall (fun kv => exists attrs, snd kv = VDict attrs) kd').
    { intros v' kd' Hin. apply Hitems. now right. }
    cbn [relax]. unfold bind at 1. unfold ret at 1.
    rewrite (costWheelchair_parallel_edges cur v Hkd).
    cbn [f_add f_inf f_leb binary64_on].
    rewrite (add_inf dist Hdist).
    destruct (assoc Z.eqb v (enqueued s)) as [[qcost h] |] eqn:Henq.
    + rewrite (@run_cost _ _ _ _ _ _ R v qcost h Henq).
      change (PrimFloat.leb infinity infinity) with true. cbv iota.
      destruct (IH Hrest s R Hcur) as (s' & Hrun & R' & Hb & He & Hm & Hall).
      exists s'. split; [exact Hrun |]. split; [exact R' |].
      split; [exact Hb |]. split; [exact He |]. split; [exact Hm |].
      intros v' kd' [[= <- <-] | Hin]; [| now apply (Hall v' kd')].
      apply Hm. apply mem_assoc. eauto.
    + destruct (heuristic_returns v (successor_node cur v Hsucc))
        as (h & Hh & _).
      unfold bind at 1. rewrite Hh.
      apply mem_false_assoc in Henq.
      pose proof (running_push (Some cur) s v cur h R Hcur Hsucc Henq) as R1.
      destruct (IH Hrest (push s v infinity h cur) R1 Hcur)
        as (s' & Hrun & R' & Hb & He & Hm & Hall).
      assert (Hnew : mem Z.eqb v (enqueued (push s v infinity h cur)) = true).
      { cbn [push enqueued]. now rewrite mem_setitem, Z.eqb_refl. }
      exists s'. split; [exact Hrun |]. split; [exact R' |].
      split; [| split; [exact He | split]].
      * pose proof (budget_push s v cur infinity h
                      (successor_node cur v Hsucc) Henq).
        lia.
      * intros n Hn. apply Hm. cbn [push enqueued].
        rewrite mem_setitem, Hn. apply orb_true_r.
      * intros v' kd' [[= <- <-] | Hin]; [now apply Hm | now apply (Hall v' kd')].
Qed.

(** The same loop when nothing is known of the heuristic: if it comes to
    its end, the state is in order and every successor is in [enqueued]. *)
Lemma relax_sound (cur : node) (dist : float) (items : list (node * dict)) :
  dist = 0%float \/ dist = infinity ->
  (forall v kd, In (v, kd) items ->
                In v (successors G cur) /\
                Forall (fun kv => exists attrs, snd kv = VDict attrs) kd) ->
  forall s,
    running G origin target (Some cur) s ->
    mem Z.eqb cur (explored s) = true ->
    forall s' w',
      relax heuristic weight target cur dist items s w = (Ret s', w') ->
      w' = w /\
      running G origin target (Some cur) s' /\
      (forall n, mem Z.eqb n (enqueued s) = true ->
                 mem Z.eqb n (enqueued s') = true) /\
      (forall v kd, In (v, kd) items -> mem Z.eqb v (enqueued s') = true).
Proof.
  intros Hdist.
  induction items as [| [v kd] items IH]; intros Hitems s R Hcur s' w' Hrun.
  - cbn in Hrun. injection Hrun as <- <-.
    split; [reflexivity |]. split; [exact R |].
    split; [auto | intros v kd []].
  - destruct (Hitems v kd (or_introl eq_refl)) as [Hsucc Hkd].
    assert (Hrest : forall v' kd', In (v', kd') items ->
                      In v' (successors G cur) /\
                      Forall (fun kv => exists attrs, snd kv = VDict attrs) kd').
    { intros v' kd' Hin. apply Hitems. now right. }
    cbn [relax] in Hrun. unfold bind at 1 in Hrun. unfold ret at 1 in Hrun.
    rewrite (costWheelchair_parallel_edges cur v Hkd) in Hrun.
    cbn [f_add f_inf f_leb binary64_on] in Hrun.
    rewrite (add_inf dist Hdist) in Hrun.
    destruct (assoc Z.eqb v (enqueued s)) as [[qcost h] |] eqn:Henq.
    + rewrite (@run_cost _ _ _ _ _ _ R v qcost h Henq) in Hrun.
      change (PrimFloat.leb infinity infinity) with true in Hrun.
      cbv iota in Hrun.
      destruct (IH Hrest s R Hcur s' w' Hrun) as (Hw & R' & Hm & Hall).
      split; [exact Hw |]. split; [exact R' |]. split; [exact Hm |].
      intros v' kd' [[= <- <-] | Hin]; [| now apply (Hall v' kd')].
      apply Hm. apply mem_assoc. eauto.
    + unfold bind at 1 in Hrun.
      pose proof (keeps_euclidianDistNode (fun w => w) v target w) as Hk.
      destruct (euclidianDistNode v target w) as [[h | e |] w1];
        cbv beta iota in Hrun; try discriminate Hrun.
      cbn [snd] in Hk. subst w1.
      apply mem_false_assoc in Henq.
      pose proof (running_push (Some cur) s v cur h R Hcur Hsucc Henq) as R1.
      destruct (IH Hrest (push s v infinity h cur) R1 Hcur s' w' Hrun)
        as (Hw & R' & Hm & Hall).
      split; [exact Hw |]. split; [exact R' |]. split.
      * intros n Hn. apply Hm. cbn [push enqueued].
        rewrite mem_setitem, Hn. apply orb_true_r.
      * intros v' kd' [[= <- <-] | Hin]; [| now apply (Hall v' kd')].
        apply Hm. cbn [push enqueued]. now rewrite mem_setitem, Z.eqb_refl.
Qed.

(** Once every successor of the node being expanded is in [enqueued] the
    expansion is over. *)
Lemma running_done (cur : node) (s : search) :
  running G origin target (Some cur) s ->
  (forall v, In v (successors G cur) -> mem Z.eqb v (enqueued s) = true) ->
  running G origin target None s.
Proof.
  intros [Ro Rr Rq Rc Rn Rw Rf Rcl Rt Rord Rl Rnd Rp] Hall.
  constructor; auto.
  intros n Hn _ v Hv. destruct (Z.eq_dec n cur) as [-> | Hne]; [now apply Hall |].
  apply (Rcl n Hn); [congruence | exact Hv].
Qed.

Lemma queue_rest (s : search) (top : entry) (rest : list entry) :
  Permutation (queue s) (top :: rest) ->
  NoDup (map e_node (queue s)) ->
  (forall e, In e rest -> In e (queue s)) /\
  In top (queue s) /\
  NoDup (map e_node rest) /\
  ~ In (e_node top) (map e_node rest) /\
  (forall n, In n (map e_node (queue s)) ->
             n = e_node top \/ In n (map e_node rest)).
Proof.
  intros Hperm Hnd.
  assert (Hnd' : NoDup (e_node top :: map e_node rest)).
  { change (NoDup (map e_node (top :: rest))).
    eapply Permutation_NoDup; [apply Permutation_map; exact Hperm | exact Hnd]. }
  inversion Hnd' as [| ? ? Hnotin Hrest]; subst.
  repeat split; auto.
  - intros e He. eapply Permutation_in; [symmetry; exact Hperm | now right].
  - eapply Permutation_in; [symmetry; exact Hperm | now left].
  - intros n Hn.
    assert (H : In n (map e_node (top :: rest))).
    { eapply Permutation_in; [apply Permutation_map; exact Hperm | exact Hn]. }
    destruct H as [<- | H]; auto.
Qed.

(** The origin's second entry, if it is pushed as a successor, is taken from
    the queue and dropped. *)
Lemma running_skip (s : search) (top : entry) (rest : list entry) :
  running G origin target None s ->
  Permutation (queue s) (top :: rest) ->
  e_node top = origin ->
  running G origin target None
    {| c := c s; queue := rest; enqueued := enqueued s; explored := explored s |}.
Proof.
  intros [Ro Rr Rq Rc Rn Rw Rf Rcl Rt Rord Rl Rnd Rp] Hperm Htop.
  destruct (queue_rest s top rest Hperm Rn) as (Hsub & _ & Hnd & _ & Hsplit).
  constructor; cbn [queue enqueued explored]; auto.
  intros n Hn. destruct (Rf n Hn) as [Hq | He]; [| now right].
  destruct (Hsplit n Hq) as [-> | Hin]; [| now left].
  right. rewrite Htop. apply mem_assoc. eauto.
Qed.

Lemma ordered_snoc (explored : list (node * option node)) (n p : node) :
  ordered explored ->
  mem Z.eqb n explored = false ->
  mem Z.eqb p explored = true ->
  ordered (explored ++ [(n, Some p)]).
Proof.
  intros [Hnd Hback] Hn Hp. split.
  - rewrite map_app. cbn. apply NoDup_app; auto.
    + constructor; [intros [] | constructor].
    + intros x Hx [<- | []]. apply mem_not_In in Hn. contradiction.
  - intros i m q Hi.
    destruct (Nat.lt_ge_cases i (List.length explored)) as [Hlt | Hge].
    + rewrite nth_error_app1 in Hi by assumption.
      destruct (Hback i m q Hi) as (j & Hj & Hq).
      exists j. split; [exact Hj |].
      rewrite map_app, nth_error_app1; [exact Hq |].
      rewrite length_map. lia.
    + rewrite nth_error_app2 in Hi by assumption.
      destruct (i - List.length explored)%nat as [| k] eqn:Hk;
        [| destruct k; discriminate Hi].
      cbn in Hi. injection Hi as <- <-.
      apply mem_In in Hp. apply In_nth_error in Hp. destruct Hp as [j Hj].
      exists j. split.
      * assert (Hjl : (j < List.length (map fst explored))%nat).
        { apply nth_error_Some. congruence. }
        rewrite length_map in Hjl. lia.
      * rewrite map_app, nth_error_app1; [exact Hj |].
        apply nth_error_Some. congruence.
Qed.

(** An entry whose node was not explored yet is taken from the queue and its
    node recorded with its parent. *)
Lemma running_expand (s : search) (top : entry) (rest : list entry) :
  running G origin target None s ->
  Permutation (queue s) (top :: rest) ->
  mem Z.eqb (e_node top) (explored s) = false ->
  e_node top <> target ->
  running G origin target (Some (e_node top))
    {| c := c s; queue := rest; enqueued := enqueued s;
       explored := setitem Z.eqb (e_node top) (e_parent top) (explored s) |}.
Proof.
  intros [Ro Rr Rq Rc Rn Rw Rf Rcl Rt Rord Rl Rnd Rp] Hperm Hnew Hnt.
  destruct (queue_rest s top rest Hperm Rn)
    as (Hsub & Htop & Hnd & Hnotin & Hsplit).
  destruct (Rq top Htop) as (p & Hp & Hpe & Hps & Hpq & _).
  rewrite Hp. remember (e_node top) as n eqn:En in *.
  assert (Hno : n <> origin).
  { intros ->. assert (mem Z.eqb origin (explored s) = true)
      by (apply mem_assoc; eauto). congruence. }
  assert (Hmono : forall m, mem Z.eqb m (explored s) = true ->
                            mem Z.eqb m (setitem Z.eqb n (Some p) (explored s)) = true).
  { intros m Hm. rewrite mem_setitem, Hm. apply orb_true_r. }
  constructor; cbn [queue enqueued explored].
  - rewrite assoc_setitem_other by congruence. exact Ro.
  - intros m Hm. destruct (Z.eq_dec m n) as [-> | Hne].
    + rewrite assoc_setitem_same in Hm. discriminate Hm.
    + rewrite assoc_setitem_other in Hm by assumption. now apply Rr.
  - intros e He. destruct (Rq e (Hsub e He)) as (q & Hq1 & Hq2 & Hq3 & Hq4 & Hq5).
    exists q. repeat split; auto.
  - exact Rc.
  - exact Hnd.
  - intros e He Hne. rewrite mem_setitem.
    rewrite (Rw e (Hsub e He) Hne), orb_false_r.
    apply Z.eqb_neq. intros Heq. apply Hnotin. rewrite <- Heq.
    now apply in_map.
  - intros m Hm. destruct (Rf m Hm) as [Hq | He]; [| right; now apply Hmono].
    destruct (Hsplit m Hq) as [-> | Hin]; [| now left].
    right. now rewrite mem_setitem, Z.eqb_refl.
  - intros m Hm Hbusy v Hv.
    destruct (Z.eq_dec m n) as [-> | Hne]; [exfalso; now apply Hbusy |].
    rewrite mem_setitem_other in Hm by assumption.
    apply (Rcl m Hm); [discriminate | exact Hv].
  - rewrite mem_setitem, Rt, orb_false_r. now apply Z.eqb_neq.
  - rewrite setitem_fresh by assumption. now apply ordered_snoc.
  - intros m q Hin. rewrite setitem_fresh in Hin by assumption.
    apply in_app_or in Hin. destruct Hin as [Hin | [[= <- <-] | []]]; auto.
  - intros m Hm.
    destruct (Z.eq_dec m n) as [-> | Hne]; [exact (successor_node p n Hps) |].
    rewrite mem_setitem_other in Hm by assumption. now apply Rnd.
  - intros m Hm Hne.
    destruct (Z.eq_dec m n) as [-> | Hne']; [exact Hpq |].
    rewrite mem_setitem_other in Hm by assumption. now apply Rp.
Qed.

Lemma mem_single (V : Type) (n k : node) (v : V) :
  mem Z.eqb n [(k, v)] = true -> n = k.
Proof.
  unfold mem. cbn. destruct (Z.eqb_spec n k); [auto | discriminate].
Qed.

(** The state in which the origin is expanded. *)
Lemma running_start :
  In origin (map fst (nodes G)) ->
  origin <> target ->
  running G origin target (Some origin)
    {| c := 1; queue := []; enqueued := [];
       explored := setitem Z.eqb origin None [] |}.
Proof.
  intros Ho Hne. cbn [setitem].
  constructor; cbn [queue enqueued explored].
  - cbn. now rewrite Z.eqb_refl.
  - intros n. cbn. destruct (Z.eqb_spec n origin); [auto | discriminate].
  - intros e [].
  - discriminate.
  - constructor.
  - intros e [].
  - discriminate.
  - intros n Hn Hbusy. apply mem_single in Hn. subst n.
    exfalso. now apply Hbusy.
  - destruct (mem Z.eqb target [(origin, @None node)]) eqn:E; [| exact E].
    apply mem_single in E. exfalso. now apply Hne.
  - split.
    + cbn. constructor; [intros [] | constructor].
    + intros [| [| i]] n p Hi; discriminate Hi.
  - intros n p [[=] | []].
  - intros n Hn. apply mem_single in Hn. now subst n.
  - intros n Hn Hno. apply mem_single in Hn. contradiction.
Qed.

(** With the queue empty, the explored nodes are closed under taking
    successors. *)
Lemma exhausted_closed (s : search) :
  running G origin target None s ->
  queue s = [] ->
  forall path a,
    route G (a :: path) ->
    mem Z.eqb a (explored s) = true ->
    mem Z.eqb (last path a) (explored s) = true.
Proof.
  intros [Ro Rr Rq Rc Rn Rw Rf Rcl Rt Rord Rl Rnd Rp] Hq.
  induction path as [| b path IH]; intros a Hroute Ha; [exact Ha |].
  destruct Hroute as [Hab Hrest].
  rewrite last_cons. apply IH; [exact Hrest |].
  assert (Hb : mem Z.eqb b (enqueued s) = true).
  { apply (Rcl a Ha); [discriminate | exact Hab]. }
  destruct (Rf b Hb) as [Hin | Hex]; [| exact Hex].
  rewrite Hq in Hin. destruct Hin.
Qed.

Lemma exhausted_unconnected (s : search) :
  running G origin target None s ->
  queue s = [] ->
  ~ connected G origin target.
Proof.
  intros R Hq (path & Hhd & Hlast & Hroute).
  destruct path as [| a path]; [discriminate Hhd |].
  cbn in Hhd. injection Hhd as ->. rewrite last_cons in Hlast.
  assert (Ho : mem Z.eqb origin (explored s) = true).
  { apply mem_assoc. exists None. apply R. }
  pose proof (exhausted_closed s R Hq path origin Hroute Ho) as Ht.
  rewrite Hlast in Ht. destruct R as [_ _ _ _ _ _ _ _ Rt _ _ _ _]. congruence.
Qed.

Lemma hd_error_rev (chain : list node) (a d : node) :
  hd_error (rev (a :: chain)) = Some (last chain a).
Proof.
  revert a. induction chain as [| b chain IH]; intro a; [reflexivity |].
  rewrite last_cons.
  change (rev (a :: b :: chain)) with (rev (b :: chain) ++ [a])%list.
  specialize (IH b). destruct (rev (b :: chain)); [discriminate IH | exact IH].
Qed.

Local Abbreviation settled r :=
  ((exists path, r = Ret path /\ leads G origin target path) \/
   (r = Raise NetworkXNoPath /\ ~ connected G origin target)).

(** The expansion of a node, given that the rest of the loop is settled. *)
Lemma expand_running (fuel : nat) (cur : node) (dist : float) (s : search) :
  (forall s', running G origin target None s' ->
              (budget G s' + List.length (nodes G) < fuel)%nat ->
              exists r, astar_loop heuristic weight target fuel s' w = (r, w) /\
                        settled r) ->
  dist = 0%float \/ dist = infinity ->
  running G origin target (Some cur) s ->
  mem Z.eqb cur (explored s) = true ->
  In cur (map fst (nodes G)) ->
  (budget G s + List.length (nodes G) < fuel)%nat ->
  exists r,
    (G0 <- the_graph ;;
     items <- getitem Z.eqb (adj G0) cur ;;
     s' <- relax heuristic weight target cur dist items s ;;
     astar_loop heuristic weight target fuel s') w = (r, w) /\
    settled r.
Proof.
  intros Hloop Hdist R Hcur Hnode Hfuel.
  pose proof (wf_adj graph_shape cur Hnode) as Hadj.
  apply mem_assoc in Hadj. destruct Hadj as [items Hitems].
  assert (Hin : forall v kd, In (v, kd) items ->
                  In v (successors G cur) /\
                  Forall (fun kv => exists attrs, snd kv = VDict attrs) kd).
  { intros v kd Hvk. split.
    - unfold successors. rewrite Hitems. now apply (in_map fst) in Hvk.
    - now destruct (@wf_succ _ _ graph_shape cur items v kd Hitems Hvk)
        as (_ & _ & H). }
  destruct (relax_running cur dist items Hdist Hin s R Hcur)
    as (s' & Hrun & R' & Hb & _ & _ & Hall).
  unfold bind at 1. unfold the_graph. unfold bind at 1. unfold getitem.
  rewrite Hitems. unfold ret at 1. unfold bind. rewrite Hrun.
  apply Hloop; [| lia].
  apply (running_done cur s' R').
  intros v Hv. unfold successors in Hv. rewrite Hitems in Hv.
  apply in_map_iff in Hv. destruct Hv as ([v' kd] & Heq & Hvk).
  cbn in Heq. subst v'. exact (Hall v kd Hvk).
Qed.

(** The loop of a running search ends, with a path that leads from the
    origin to the target or, when no path leads there, with
    [NetworkXNoPath]. *)
Lemma astar_loop_running (fuel : nat) :
  forall s,
    running G origin target None s ->
    (budget G s + List.length (nodes G) < fuel)%nat ->
    exists r, astar_loop heuristic weight target fuel s w = (r, w) /\
              settled r.
Proof.
  induction fuel as [| fuel IH]; intros s R Hfuel; [lia |].
  cbn [astar_loop].
  destruct (heappop (queue s)) as [[top rest] |] eqn:Hpop.
  2: { apply heappop_empty in Hpop. exists (Raise NetworkXNoPath).
       split; [reflexivity |]. right. split; [reflexivity |].
       exact (exhausted_unconnected s R Hpop). }
  apply heappop_perm in Hpop.
  pose proof (Permutation_length Hpop) as Hlen. cbn in Hlen.
  pose proof R as [Ro Rr Rq Rc Rn Rw Rf Rcl Rt Rord Rl Rnd Rp].
  destruct (queue_rest s top rest Hpop Rn) as (_ & Htop & _ & _ & _).
  destruct (Rq top Htop) as (p & Hp & Hpe & Hps & Hpq & Hpd).
  cbv zeta. cbn [c queue enqueued explored].
  destruct (Z.eqb_spec (e_node top) target) as [Ht | Hnt].
  - (* the target is taken from the queue *)
    rewrite Hp.
    assert (Hi : exists i, nth_error (map fst (explored s)) i = Some p).
    { apply In_nth_error. now apply mem_In. }
    destruct Hi as [i Hi].
    assert (Hbound : (i < fuel)%nat).
    { assert (Hil : (i < List.length (map fst (explored s)))%nat)
        by (apply nth_error_Some; congruence).
      assert (Hle : (List.length (map fst (explored s)) <=
                     List.length (map fst (nodes G)))%nat).
      { apply NoDup_incl_length; [apply Rord |].
        intros n Hn. apply Rnd. now apply mem_In. }
      rewrite !length_map in Hle. rewrite length_map in Hil.
      unfold budget in Hfuel. lia. }
    destruct (walk_back_ordered (explored s) Rord Rl i p fuel [e_node top]
                Hi Hbound) as (chain & Hrun & Hlinked & Hroot).
    unfold bind. rewrite Hrun. eexists. split; [reflexivity |].
    left. eexists. split; [reflexivity |].
    cbn [app]. rewrite Ht in *.
    split; [| split].
    + change (rev (target :: p :: chain))
        with (rev (p :: chain) ++ [target])%list.
      pose proof (hd_error_rev chain p p) as Hhd.
      rewrite (Rr _ Hroot) in Hhd.
      destruct (rev (p :: chain)); [discriminate Hhd | exact Hhd].
    + change (rev (target :: p :: chain))
        with (rev (p :: chain) ++ [target])%list.
      apply last_snoc.
    + apply linked_route. split; assumption.
  - destruct (assoc Z.eqb (e_node top) (explored s)) as [[q |] |] eqn:Hex.
    + (* explored with a parent: no such entry is in the queue *)
      exfalso.
      assert (Hno : e_node top <> origin) by (intros E; rewrite E in Hex; congruence).
      pose proof (Rw top Htop Hno) as Hw.
      apply mem_false_assoc in Hw. congruence.
    + (* the origin again *)
      apply IH.
      * apply (running_skip s top rest R Hpop). now apply Rr.
      * unfold budget in *. cbn [queue enqueued]. unfold fresh_nodes in *.
        cbn [enqueued]. lia.
    + (* a node not explored yet *)
      apply mem_false_assoc in Hex.
      apply (expand_running fuel (e_node top) (e_dist top)); auto.
      * apply (running_expand s top rest R Hpop Hex Hnt).
      * cbn [explored]. now rewrite mem_setitem, Z.eqb_refl.
      * exact (successor_node p (e_node top) Hps).
      * unfold budget in *. cbn [queue enqueued]. unfold fresh_nodes in *.
        cbn [enqueued]. lia.
Qed.

Lemma budget_start :
  (budget G {| c := 1; queue := []; enqueued := [];
               explored := setitem Z.eqb origin None [] |}
   <= List.length (nodes G))%nat.
Proof.
  unfold budget, fresh_nodes. cbn [queue enqueued List.length].
  eapply Nat.le_trans; [apply List.filter_length_le |].
  rewrite length_map. apply Nat.le_refl.
Qed.

(** [networkx.astar_path] as [wheelchairPath] calls it: on a well-formed,
    multigraph with a calm target it returns a path along edges from the origin to the
    target when there is one, and raises [NetworkXNoPath] when there is
    none. *)
Lemma astar_path_settled (fuel : nat) :
  In origin (map fst (nodes G)) ->
  (2 * List.length (nodes G) + 2 <= fuel)%nat ->
  exists r, astar_path heuristic weight target fuel origin w = (r, w) /\
            settled r.
Proof.
  intros Ho Hfuel.
  unfold astar_path, bind, the_graph.
  pose proof Ho as Ho'. pose proof target_node as Ht'.
  apply mem_In in Ho', Ht'. rewrite Ho', Ht'. cbn [negb].
  destruct fuel as [| fuel]; [lia |].
  cbn [astar_loop queue heappop]. cbv zeta.
  cbn [e_node e_dist e_parent c queue enqueued explored].
  destruct (Z.eqb_spec origin target) as [E | Hne].
  - exists (Ret [origin]). split.
    + destruct fuel; reflexivity.
    + left. exists [origin]. split; [reflexivity |].
      repeat split. exact E.
  - cbn [assoc].
    apply (expand_running fuel origin 0%float); auto.
    + intros s' R' Hb. now apply astar_loop_running.
    + now apply running_start.
    + cbn [explored]. now rewrite mem_setitem, Z.eqb_refl.
    + eapply Nat.le_lt_trans;
        [apply Nat.add_le_mono_r; apply budget_start | lia].
Qed.

Lemma wheelchairPath_settled (fuel : nat) :
  In origin (map fst (nodes G)) ->
  (2 * List.length (nodes G) + 2 <= fuel)%nat ->
  (connected G origin target ->
   exists path,
     wheelchairPath fuel origin target w = (Ret path, w) /\
     leads G origin target path) /\
  (~ connected G origin target ->
   wheelchairPath fuel origin target w =
     (Ret [],
      {| graph := G;
         stdout := stdout w ++
                   ["No path found that is wheelchair accessible."] |})).
Proof.
  intros Ho Hfuel.
  destruct (astar_path_settled fuel Ho Hfuel) as (r & Hr & Hcases).
  unfold wheelchairPath, try_except. rewrite Hr.
  destruct Hcases as [(path & -> & Hleads) | [-> Hnot]]; split.
  - intros _. eauto.
  - intro Hnot. exfalso. apply Hnot. now exists path.
  - intro Hc. contradiction.
  - intros _. reflexivity.
Qed.
End Reach.

(** ** The search does not look at the edges' attributes *)

Section Blind.
Context {F : PyFloat}.

Lemma stateless_bind (A B : Type) (m : M A) (k : A -> M B) (w : world) :
  keeps (fun w => w) m ->
  fst (bind m k w) =
    match fst (m w) with
    | Ret a => fst (k a w)
    | Raise e => Raise e
    | OutOfFuel => OutOfFuel
    end.
Proof.
  intro Hm. specialize (Hm w). unfold bind.
  destruct (m w) as [[a | e |] w']; cbn in *; subst; reflexivity.
Qed.

Variables w1 w2 : world.
Variable target : node.
Hypothesis shape1 : well_formed (graph w1).
Hypothesis shape2 : well_formed (graph w2).
Hypothesis same_nodes : nodes (graph w1) = nodes (graph w2).
Hypothesis same_skeleton : skeleton (graph w1) = skeleton (graph w2).

Local Abbreviation heuristic := (fun u v : node => euclidianDistNode u v).
Local Abbreviation weight :=
  (fun (u v : node) (data : dict) => ret (costWheelchair u v data)).

Lemma node_attr_blind (u : node) (attr : string) :
  fst (node_attr u attr w1) = fst (node_attr u attr w2).
Proof.
  unfold node_attr, bind, the_graph, getitem. rewrite same_nodes.
  destruct (assoc Z.eqb u (nodes (graph w2))) as [d |]; cbn; [| reflexivity].
  destruct (assoc key_eqb (KStr attr) d); reflexivity.
Qed.

Lemma py_sub_blind (a b : pyval) :
  fst (py_sub a b w1) = fst (py_sub a b w2).
Proof. destruct a, b; reflexivity. Qed.

Lemma sq_blind (x : num) : fst (sq x w1) = fst (sq x w2).
Proof. unfold sq. destruct (f_pow2 x); reflexivity. Qed.

Lemma py_sqrt_blind (x : num) : fst (py_sqrt x w1) = fst (py_sqrt x w2).
Proof.
  unfold py_sqrt.
  destruct (negb (f_eqb (f_sqrt x) (f_sqrt x)) && f_eqb x x); reflexivity.
Qed.

Ltac blind_step :=
  rewrite (stateless_bind _ _ _ _ w1), (stateless_bind _ _ _ _ w2)
    by first [apply keeps_node_attr | apply keeps_py_sub | apply keeps_sq];
  rewrite ?node_attr_blind, ?py_sub_blind, ?sq_blind;
  match goal with
  | |- match ?o with Ret _ => _ | Raise _ => _ | OutOfFuel => _ end = _ =>
      destruct o; [| reflexivity | reflexivity]
  end.

(** The heuristic reads the nodes only. *)
Lemma euclidianDistNode_blind (u v : node) :
  fst (euclidianDistNode u v w1) = fst (euclidianDistNode u v w2).
Proof.
  unfold euclidianDistNode. do 8 blind_step. apply py_sqrt_blind.
Qed.

Lemma adj_blind (u : node) :
  match assoc Z.eqb u (adj (graph w1)), assoc Z.eqb u (adj (graph w2)) with
  | Some items1, Some items2 => map fst items1 = map fst items2
  | None, None => True
  | _, _ => False
  end.
Proof.
  unfold skeleton in same_skeleton. revert same_skeleton.
  generalize (adj (graph w1)) (adj (graph w2)).
  induction l as [| [k1 i1] l IH]; intros [| [k2 i2] l'] H; cbn in *;
    try discriminate H; [exact I |].
  injection H as Hk Hi Hl. subst k2.
  destruct (Z.eqb u k1); [exact Hi | now apply IH].
Qed.

Lemma getitem_blind (K V : Type) (eqb : K -> K -> bool) (d : list (K * V))
      (k : K) :
  fst (getitem eqb d k w1) = fst (getitem eqb d k w2).
Proof. unfold getitem. destruct (assoc eqb k d); reflexivity. Qed.

Lemma relax_blind (cur : node) (dist : num) :
  forall items1 items2 s,
    map fst items1 = map fst items2 ->
    (forall v kd, In (v, kd) items1 ->
                  Forall (fun kv => exists attrs, snd kv = VDict attrs) kd) ->
    (forall v kd, In (v, kd) items2 ->
                  Forall (fun kv => exists attrs, snd kv = VDict attrs) kd) ->
    fst (relax heuristic weight target cur dist items1 s w1) =
    fst (relax heuristic weight target cur dist items2 s w2).
Proof.
  induction items1 as [| [v1 kd1] items1 IH]; intros [| [v2 kd2] items2] s Hmap H1 H2;
    try discriminate Hmap; [reflexivity |].
  cbn in Hmap. injection Hmap as <- Hmap.
  assert (IH' : forall s', fst (relax heuristic weight target cur dist items1 s' w1) =
                           fst (relax heuristic weight target cur dist items2 s' w2)).
  { intro s'. apply IH; [exact Hmap | |]; intros v kd Hin;
      [apply (H1 v kd) | apply (H2 v kd)]; now right. }
  cbn [relax].
  rewrite (stateless_bind _ _ _ _ w1), (stateless_bind _ _ _ _ w2)
    by apply keeps_ret.
  cbn [ret fst].
  rewrite (costWheelchair_parallel_edges cur v1 (H1 v1 kd1 (or_introl eq_refl))).
  rewrite (costWheelchair_parallel_edges cur v1 (H2 v1 kd2 (or_introl eq_refl))).
  destruct (assoc Z.eqb v1 (enqueued s)) as [[qcost h] |].
  - destruct (f_leb qcost (f_add dist f_inf)); apply IH'.
  - rewrite (stateless_bind _ _ _ _ w1), (stateless_bind _ _ _ _ w2)
      by apply keeps_euclidianDistNode.
    rewrite euclidianDistNode_blind.
    destruct (fst (euclidianDistNode v1 target w2)); [apply IH' | reflexivity ..].
Qed.

Lemma walk_back_blind (fuel : nat) (explored : list (node * option node)) :
  forall n path,
    fst (walk_back fuel explored n path w1) =
    fst (walk_back fuel explored n path w2).
Proof.
  induction fuel as [| fuel IH]; intros [n |] path; cbn [walk_back];
    try reflexivity.
  rewrite (stateless_bind _ _ _ _ w1), (stateless_bind _ _ _ _ w2)
    by apply keeps_getitem.
  rewrite getitem_blind.
  destruct (fst (getitem Z.eqb explored n w2)); [apply IH | reflexivity ..].
Qed.

Lemma expand_blind (fuel : nat) (cur : node) (dist : num) (s : search) :
  (forall s', fst (astar_loop heuristic weight target fuel s' w1) =
              fst (astar_loop heuristic weight target fuel s' w2)) ->
  fst ((G <- the_graph ;;
        items <- getitem Z.eqb (adj G) cur ;;
        s' <- relax heuristic weight target cur dist items s ;;
        astar_loop heuristic weight target fuel s') w1) =
  fst ((G <- the_graph ;;
        items <- getitem Z.eqb (adj G) cur ;;
        s' <- relax heuristic weight target cur dist items s ;;
        astar_loop heuristic weight target fuel s') w2).
Proof.
  intro Hloop.
  rewrite (stateless_bind _ _ _ _ w1), (stateless_bind _ _ _ _ w2)
    by apply keeps_the_graph.
  cbn [the_graph fst].
  rewrite (stateless_bind _ _ _ _ w1), (stateless_bind _ _ _ _ w2)
    by apply keeps_getitem.
  pose proof (adj_blind cur) as Hadj. unfold getitem.
  destruct (assoc Z.eqb cur (adj (graph w1))) as [items1 |] eqn:E1;
    destruct (assoc Z.eqb cur (adj (graph w2))) as [items2 |] eqn:E2;
    try contradiction; [| reflexivity].
  cbn [ret fst].
  rewrite (stateless_bind _ _ _ _ w1), (stateless_bind _ _ _ _ w2)
    by (apply keeps_relax; intros;
        [apply keeps_euclidianDistNode | apply keeps_ret]).
  rewrite (relax_blind cur dist items1 items2 s Hadj).
  - destruct (fst (relax _ _ _ _ _ items2 s w2)); [apply Hloop | reflexivity ..].
  - intros v kd Hin.
    now destruct (@wf_succ _ _ shape1 cur items1 v kd E1 Hin) as (_ & _ & H).
  - intros v kd Hin.
    now destruct (@wf_succ _ _ shape2 cur items2 v kd E2 Hin) as (_ & _ & H).
Qed.

Lemma astar_loop_blind (fuel : nat) :
  forall s,
    fst (astar_loop heuristic weight target fuel s w1) =
    fst (astar_loop heuristic weight target fuel s w2).
Proof.
  induction fuel as [| fuel IH]; intro s; [reflexivity |].
  cbn [astar_loop].
  destruct (heappop (queue s)) as [[top rest] |]; [| reflexivity].
  cbv zeta. cbn [c queue enqueued explored].
  destruct (Z.eqb (e_node top) target).
  - rewrite (stateless_bind _ _ _ _ w1), (stateless_bind _ _ _ _ w2)
      by apply keeps_walk_back.
    rewrite walk_back_blind.
    destruct (fst (walk_back _ _ _ _ w2)); reflexivity.
  - destruct (assoc Z.eqb (e_node top) (explored s)) as [[p |] |].
    + rewrite (stateless_bind _ _ _ _ w1), (stateless_bind _ _ _ _ w2)
        by apply keeps_getitem.
      rewrite getitem_blind.
      destruct (fst (getitem Z.eqb (enqueued s) (e_node top) w2))
        as [[qcost h] | e |]; [| reflexivity ..].
      destruct (f_ltb qcost (e_dist top)); [apply IH |].
      apply (expand_blind fuel (e_node top) (e_dist top)). exact IH.
    + apply IH.
    + apply (expand_blind fuel (e_node top) (e_dist top)). exact IH.
Qed.

Lemma astar_path_blind (fuel : nat) (source : node) :
  fst (astar_path heuristic weight target fuel source w1) =
  fst (astar_path heuristic weight target fuel source w2).
Proof.
  unfold astar_path.
  rewrite (stateless_bind _ _ _ _ w1), (stateless_bind _ _ _ _ w2)
    by apply keeps_the_graph.
  cbn [the_graph fst]. rewrite same_nodes.
  destruct (negb (mem Z.eqb source (nodes (graph w2)))); [reflexivity |].
  destruct (negb (mem Z.eqb target (nodes (graph w2)))); [reflexivity |].
  apply astar_loop_blind.
Qed.
End Blind.

(** On two well-formed multigraphs with the same nodes and the same
    successors, [wheelchairPath] has the same outcome: the [wheelchair] and
    [length] attributes of the edges play no part in it. *)
Theorem wheelchairPath_blind_to_attributes {F : PyFloat} (w1 w2 : world)
        (fuel : nat) (origin endpoint : node) :
  well_formed (graph w1) ->
  well_formed (graph w2) ->
  nodes (graph w1) = nodes (graph w2) ->
  skeleton (graph w1) = skeleton (graph w2) ->
  fst (wheelchairPath fuel origin endpoint w1) =
  fst (wheelchairPath fuel origin endpoint w2).
Proof.
  intros Hs1 Hs2 Hn Hk.
  pose proof (astar_path_blind w1 w2 endpoint Hs1 Hs2 Hn Hk fuel origin) as H.
  unfold wheelchairPath, try_except.
  destruct (astar_path _ _ endpoint fuel origin w1) as [[p1 | e1 |] w1'];
    destruct (astar_path _ _ endpoint fuel origin w2) as [[p2 | e2 |] w2'];
    cbn in H; try discriminate H; try reflexivity.
  - exact H.
  - injection H as <-. destruct (exn_eqb e1 NetworkXNoPath); reflexivity.
Qed.

(** ** The search follows edges of any kind *)

Ltac shape_of_map :=
  lazymatch goal with
  | |- well_formed (graph ?m) =>
      split;
      [ intros n Hn; cbn in Hn;
        repeat (destruct Hn as [<- | Hn]; [reflexivity |]); destruct Hn
      | intros u items v kd Hitems Hin;
        cbv delta [m map_of] in Hitems;
        cbn [graph adj] in Hitems; pick_key Hitems; subst items;
        repeat (destruct Hin as [Hin | Hin];
                [ injection Hin as <- <-;
                  split; [cbn; auto | split; [discriminate |]];
                  repeat constructor; eexists; reflexivity |]);
        destruct Hin ]
  end.

Ltac calm_map :=
  lazymatch goal with
  | |- calm _ _ =>
      let u := fresh "u" in
      let Hu := fresh "Hu" in
      intros u Hu; cbn in Hu;
      repeat (destruct Hu as [<- | Hu];
              [eexists; split; reflexivity |]);
      destruct Hu
  end.

Section AnyEdge.
Context {libm : Libm}.
Existing Instance binary64_on.

Lemma key_eqb_refl (k : key) : key_eqb k k = true.
Proof. now apply key_eqb_eq. Qed.

Lemma assoc_first (V : Type) (n : node) (d : list (node * V)) :
  In n (map fst d) -> exists v, assoc Z.eqb n d = Some v /\ In (n, v) d.
Proof.
  intro H. apply mem_In, mem_assoc in H. destruct H as [v Hv].
  exists v. split; [exact Hv | now apply assoc_In].
Qed.

(** A path of edges is a path over successors. *)
Lemma walk_connected (G : MultiDiGraph) (hops : list (node * key * dict)) :
  forall u v, walk G u hops v -> connected G u v.
Proof.
  induction hops as [| [[n k] attrs] hops IH]; intros u v Hw; cbn [walk] in Hw.
  - subst v. exists [u]. repeat split.
  - destruct Hw as [(items & kd & Hitems & Hkd & _) Hrest].
    destruct (IH n v Hrest) as (path & Hhd & Hlast & Hroute).
    destruct path as [| a path]; [discriminate Hhd |].
    cbn in Hhd. injection Hhd as ->.
    exists (u :: n :: path). split; [reflexivity |]. split.
    + rewrite last_cons. rewrite last_cons in Hlast |- *. exact Hlast.
    + split; [| exact Hroute].
      unfold successors. rewrite Hitems.
      apply assoc_In in Hkd. now apply (in_map fst) in Hkd.
Qed.

(** In a well-formed graph a path over successors is a path of edges. *)
Lemma connected_walk (G : MultiDiGraph) (u v : node) :
  well_formed G -> connected G u v -> exists hops, walk G u hops v.
Proof.
  intros Hwf (path & Hhd & Hlast & Hroute).
  destruct path as [| a path]; [discriminate Hhd |].
  cbn in Hhd. injection Hhd as ->. rewrite last_cons in Hlast.
  revert u Hlast Hroute.
  induction path as [| b path IH]; intros u Hlast Hroute.
  - cbn in Hlast. subst v. now exists [].
  - destruct Hroute as [Hub Hrest]. rewrite last_cons in Hlast.
    destruct (IH b Hlast Hrest) as [hops Hhops].
    unfold successors in Hub.
    destruct (assoc Z.eqb u (adj G)) as [items |] eqn:Hitems; [| contradiction].
    destruct (assoc_first _ b items Hub) as (kd & Hkd & Hin).
    destruct (@wf_succ _ _ Hwf u items b kd Hitems Hin) as (_ & Hne & Hdicts).
    destruct kd as [| [k x] kd]; [contradiction |].
    apply Forall_inv in Hdicts. destruct Hdicts as [attrs Hx].
    cbn in Hx. subst x.
    exists ((b, k, attrs) :: hops). split; [| exact Hhops].
    exists items, ((k, VDict attrs) :: kd). repeat split; auto.
    cbn. now rewrite key_eqb_refl.
Qed.

(** On a well-formed multigraph, with the heuristic towards the destination
    returning from every node a value that is not a NaN, and with fuel for
    twice as many iterations as there are nodes and two more, a search
    between two nodes joined by a path of edges, accessible or not, returns
    a path from the origin to the destination. *)
Theorem wheelchairPath_any_route (w : world) (origin endpoint : node)
        (fuel : nat) :
  well_formed (graph w) ->
  calm w endpoint ->
  In origin (map fst (nodes (graph w))) ->
  In endpoint (map fst (nodes (graph w))) ->
  (2 * List.length (nodes (graph w)) + 2 <= fuel)%nat ->
  (exists hops, walk (graph w) origin hops endpoint) ->
  exists path,
    wheelchairPath fuel origin endpoint w = (Ret path, w) /\
    leads (graph w) origin endpoint path.
Proof.
  intros Hwf Hcalm Ho He Hfuel [hops Hhops].
  apply (wheelchairPath_settled w origin endpoint Hwf Hcalm He fuel Ho Hfuel).
  exact (walk_connected (graph w) hops origin endpoint Hhops).
Qed.

(** Under the same conditions, a search between two nodes that no path of
    edges joins prints its message and returns the empty path; it raises
    nothing. *)
Theorem wheelchairPath_no_route (w : world) (origin endpoint : node)
        (fuel : nat) :
  well_formed (graph w) ->
  calm w endpoint ->
  In origin (map fst (nodes (graph w))) ->
  In endpoint (map fst (nodes (graph w))) ->
  (2 * List.length (nodes (graph w)) + 2 <= fuel)%nat ->
  ~ (exists hops, walk (graph w) origin hops endpoint) ->
  wheelchairPath fuel origin endpoint w =
    (Ret [],
     {| graph := graph w;
        stdout := stdout w ++
                  ["No path found that is wheelchair accessible."] |}).
Proof.
  intros Hwf Hcalm Ho He Hfuel Hnone.
  apply (wheelchairPath_settled w origin endpoint Hwf Hcalm He fuel Ho Hfuel).
  intro Hc. apply Hnone. now apply connected_walk.
Qed.

End AnyEdge.

Section AnyEdgeRuns.
Existing Instance binary64.

Lemma closed_street_shape : well_formed (graph closed_street).
Proof. shape_of_map. Qed.

Lemma closed_street_calm : calm closed_street 2.
Proof. calm_map. Qed.

Lemma one_street_shape : well_formed (graph one_street).
Proof. shape_of_map. Qed.

Lemma islands_shape : well_formed (graph islands).
Proof. shape_of_map. Qed.

Lemma islands_calm : calm islands 2.
Proof. calm_map. Qed.

Lemma wheelchairPath_any_route_witness :
  exists path,
    wheelchairPath 6 1 2 closed_street = (Ret path, closed_street) /\
    leads (graph closed_street) 1 2 path.
Proof.
  apply wheelchairPath_any_route.
  - exact closed_street_shape.
  - exact closed_street_calm.
  - cbn. auto.
  - cbn. auto.
  - cbn. lia.
  - exists [(2, KInt 0, street "no" 5)]. split; [| reflexivity].
    do 2 eexists. repeat split.
Defined.

Lemma wheelchairPath_no_route_witness :
  wheelchairPath 6 1 2 islands =
    (Ret [],
     {| graph := graph islands;
        stdout := ["No path found that is wheelchair accessible."] |}).
Proof.
  apply (wheelchairPath_no_route islands 1 2 6).
  - exact islands_shape.
  - exact islands_calm.
  - cbn. auto.
  - cbn. auto.
  - cbn. lia.
  - intros [[| [[n k] attrs] hops] Hw]; cbn [walk] in Hw; [discriminate Hw |].
    destruct Hw as [He _]. edge_cases He.
Defined.

Lemma wheelchairPath_blind_to_attributes_witness :
  fst (wheelchairPath 5 1 2 one_street) =
  fst (wheelchairPath 5 1 2 closed_street).
Proof.
  apply wheelchairPath_blind_to_attributes.
  - exact one_street_shape.
  - exact closed_street_shape.
  - reflexivity.
  - reflexivity.
Defined.
End AnyEdgeRuns.

(** ** The lookups by name *)

Section LookupFacts.
Context {F : PyFloat}.

Lemma name_test (name : string) (data : dict) :
  eq_str (get data (KStr "name") VNone) name = true <-> named name data.
Proof.
  unfold named, get.
  destruct (assoc key_eqb (KStr "name") data) as [[| s | x | d] |]; cbn [eq_str];
    try (split; [discriminate | congruence]).
  rewrite String.eqb_eq. split; [intros -> | intros [= ->]]; reflexivity.
Qed.

Lemma first_named_spec (name : string) (items : list (node * dict)) :
  match first_named name items with
  | Some n =>
      exists before data after,
        items = (before ++ (n, data) :: after)%list /\
        named name data /\
        forall m d, In (m, d) before -> ~ named name d
  | None => forall m d, In (m, d) items -> ~ named name d
  end.
Proof.
  induction items as [| [n data] items IH]; cbn [first_named].
  - intros m d [].
  - destruct (eq_str (get data (KStr "name") VNone) name) eqn:Htest.
    + apply name_test in Htest.
      exists [], data, items. split; [reflexivity |]. split; [exact Htest |].
      intros m d [].
    + assert (Hnot : ~ named name data).
      { intro H. apply name_test in H. congruence. }
      destruct (first_named name items) as [k |].
      * destruct IH as (before & d & after & -> & Hd & Hbefore).
        exists ((n, data) :: before), d, after.
        split; [reflexivity |]. split; [exact Hd |].
        intros m d' [[= <- <-] | Hin]; [exact Hnot | now apply (Hbefore m)].
      * intros m d [[= <- <-] | Hin]; [exact Hnot | now apply (IH m)].
Qed.

(** [searchNodeName] returns the first node, in the order of the graph,
    whose ["name"] attribute is the string asked for, and [None] exactly
    when no node carries that name; it raises nothing and changes nothing. *)
Theorem searchNodeName_first_match (name : string) (w : world) :
  snd (searchNodeName name w) = w /\
  match fst (searchNodeName name w) with
  | Ret (Some n) =>
      exists before data after,
        nodes (graph w) = (before ++ (n, data) :: after)%list /\
        named name data /\
        forall m d, In (m, d) before -> ~ named name d
  | Ret None => forall m d, In (m, d) (nodes (graph w)) -> ~ named name d
  | _ => False
  end.
Proof.
  split; [reflexivity |].
  unfold searchNodeName, bind, the_graph, ret. cbn [fst].
  exact (first_named_spec name (nodes (graph w))).
Qed.

(** ** The colour of an edge and its cost *)

Lemma lower_char_yes (ch : ascii) :
  (lower_char ch = "y"%char <-> ch = "y"%char \/ ch = "Y"%char) /\
  (lower_char ch = "e"%char <-> ch = "e"%char \/ ch = "E"%char) /\
  (lower_char ch = "s"%char <-> ch = "s"%char \/ ch = "S"%char).
Proof.
  destruct ch as [[] [] [] [] [] [] [] []]; vm_compute;
    repeat split; intros; try discriminate; auto;
    match goal with
    | H : _ \/ _ |- _ => destruct H; discriminate
    end.
Qed.


Lemma lower_yes (s : string) : lower s = "yes" <-> In s spelled_yes.
Proof.
  split.
  - destruct s as [| a [| b [| c [| d s]]]]; cbn [lower]; try discriminate.
    intros [= Ha Hb Hc].
    apply (proj1 (lower_char_yes a)) in Ha.
    apply (proj1 (proj2 (lower_char_yes b))) in Hb.
    apply (proj2 (proj2 (lower_char_yes c))) in Hc.
    destruct Ha as [-> | ->], Hb as [-> | ->], Hc as [-> | ->];
      unfold spelled_yes; cbn; tauto.
  - unfold spelled_yes. cbn.
    intros H. repeat (destruct H as [<- | H]; [reflexivity |]). destruct H.
Qed.

(** [showMap] draws an edge green when its [wheelchair] tag is one of the
    eight spellings of yes in upper and lower case, and only then; every edge
    [costWheelchair] takes as accessible is drawn green, and an edge tagged
    with one of the seven other spellings is drawn green and priced
    [+inf]. *)
Theorem wheelchair_colour_and_cost (repr : pyval -> string) (u v : node)
        (attrs : dict) :
  (forall s, wheelchair_colour repr (VStr s) = "green" <-> In s spelled_yes) /\
  (accessible attrs ->
   forall default,
     wheelchair_colour repr (get attrs (KStr "wheelchair") default) = "green") /\
  (forall s,
     assoc key_eqb (KStr "wheelchair") attrs = Some (VStr s) ->
     In s spelled_yes -> s <> "yes" ->
     wheelchair_colour repr (get attrs (KStr "wheelchair") VNone) = "green" /\
     costWheelchair u v attrs = VNum f_inf).
Proof.
  assert (Hgreen : forall s, wheelchair_colour repr (VStr s) = "green" <->
                             In s spelled_yes).
  { intro s. rewrite <- lower_yes. unfold wheelchair_colour. cbn [py_str].
    destruct (String.eqb_spec (lower s) "yes") as [E | E];
      [split; auto | split; [discriminate | contradiction]]. }
  split; [exact Hgreen | split].
  - intros Hacc default. unfold get. rewrite Hacc.
    apply Hgreen. unfold spelled_yes. now left.
  - intros s Htag Hin Hne. split.
    + unfold get. rewrite Htag. now apply Hgreen.
    + apply costWheelchair_not_accessible. unfold accessible.
      rewrite Htag. intros [= E]. now apply Hne.
Qed.
End LookupFacts.

(** ** When the heuristic raises *)

Section HeuristicErrors.
Context {F : PyFloat}.

(** The arithmetic of [euclidianDistNode] on the four values looked up. *)
Lemma arithmetic_cases (x1 y1 x2 y2 : pyval) (w : world) :
  match fst ((dx <- py_sub x1 x2 ;;
              a <- sq dx ;;
              dy <- py_sub y1 y2 ;;
              b <- sq dy ;;
              py_sqrt (f_add a b)) w) with
  | Ret h =>
      exists xu yu xv yv a b,
        x1 = VNum xu /\ y1 = VNum yu /\ x2 = VNum xv /\ y2 = VNum yv /\
        f_pow2 (f_sub xu xv) = Some a /\
        f_pow2 (f_sub yu yv) = Some b /\
        h = f_sqrt (f_add a b)
  | Raise e => e = TypeError \/ e = OverflowError \/ e = ValueError
  | OutOfFuel => False
  end.
Proof.
  unfold bind at 1.
  destruct x1 as [| s1 | xu | d1], x2 as [| s2 | xv | d2];
    cbn [py_sub raise ret fst]; auto.
  unfold bind at 1. unfold sq at 1.
  destruct (f_pow2 (f_sub xu xv)) as [a |] eqn:Ha;
    cbn [raise ret fst]; auto.
  unfold bind at 1.
  destruct y1 as [| t1 | yu | e1], y2 as [| t2 | yv | e2];
    cbn [py_sub raise ret fst]; auto.
  unfold bind at 1. unfold sq at 1.
  destruct (f_pow2 (f_sub yu yv)) as [b |] eqn:Hb;
    cbn [raise ret fst]; auto.
  unfold py_sqrt.
  destruct (negb (f_eqb (f_sqrt (f_add a b)) (f_sqrt (f_add a b))) &&
            f_eqb (f_add a b) (f_add a b));
    cbn [raise ret fst]; auto.
  exists xu, yu, xv, yv, a, b. repeat split; assumption.
Qed.

(** The ways [euclidianDistNode] can end, none of which changes the graph
    or the output.  A node that is missing or stores no ["x"] or no ["y"]
    gives [KeyError] before any arithmetic; with the four values there, an
    ["x"] that is not a number gives [TypeError]; a value is returned only
    when the four are numbers and no square is out of range, and it is the
    root of the sum of the squares; and the only exceptions are [KeyError],
    [TypeError], [OverflowError] and [ValueError], never the [NetworkXNoPath]
    that [wheelchairPath] catches. *)
Theorem euclidianDistNode_outcomes (u v : node) (w : world) :
  snd (euclidianDistNode u v w) = w /\
  (stored w u "x" = None \/ stored w u "y" = None \/
   stored w v "x" = None \/ stored w v "y" = None ->
   fst (euclidianDistNode u v w) = Raise KeyError) /\
  (forall x1 y1 x2 y2,
      stored w u "x" = Some x1 -> stored w u "y" = Some y1 ->
      stored w v "x" = Some x2 -> stored w v "y" = Some y2 ->
      (forall a b, ~ (x1 = VNum a /\ x2 = VNum b)) ->
      fst (euclidianDistNode u v w) = Raise TypeError) /\
  (forall h,
      fst (euclidianDistNode u v w) = Ret h ->
      exists xu yu xv yv a b,
        stored w u "x" = Some (VNum xu) /\ stored w u "y" = Some (VNum yu) /\
        stored w v "x" = Some (VNum xv) /\ stored w v "y" = Some (VNum yv) /\
        f_pow2 (f_sub xu xv) = Some a /\
        f_pow2 (f_sub yu yv) = Some b /\
        h = f_sqrt (f_add a b)) /\
  (forall e,
      fst (euclidianDistNode u v w) = Raise e ->
      e = KeyError \/ e = TypeError \/ e = OverflowError \/ e = ValueError) /\
  fst (euclidianDistNode u v w) <> OutOfFuel.
Proof.
  rewrite euclidianDistNode_eval. cbn [fst snd].
  split; [reflexivity |]. split; [| split; [| split; [| split]]].
  - intros [H | [H | [H | H]]]; rewrite H;
      destruct (stored w u "x"), (stored w u "y"), (stored w v "x");
      reflexivity.
  - intros x1 y1 x2 y2 -> -> -> -> Hnot.
    unfold bind at 1.
    destruct x1 as [| s1 | xu | d1], x2 as [| s2 | xv | d2];
      try reflexivity.
    exfalso. now apply (Hnot xu xv).
  - intros h Hh.
    destruct (stored w u "x") as [x1 |], (stored w u "y") as [y1 |],
             (stored w v "x") as [x2 |], (stored w v "y") as [y2 |];
      try discriminate Hh.
    pose proof (arithmetic_cases x1 y1 x2 y2 w) as Hc. rewrite Hh in Hc.
    destruct Hc as (xu & yu & xv & yv & a & b & -> & -> & -> & -> & Hc).
    exists xu, yu, xv, yv, a, b. tauto.
  - intros e He.
    destruct (stored w u "x") as [x1 |], (stored w u "y") as [y1 |],
             (stored w v "x") as [x2 |], (stored w v "y") as [y2 |];
      try (injection He as <-; now left).
    pose proof (arithmetic_cases x1 y1 x2 y2 w) as Hc. rewrite He in Hc.
    tauto.
  - intro Ho.
    destruct (stored w u "x") as [x1 |], (stored w u "y") as [y1 |],
             (stored w v "x") as [x2 |], (stored w v "y") as [y2 |];
      try discriminate Ho.
    pose proof (arithmetic_cases x1 y1 x2 y2 w) as Hc. now rewrite Ho in Hc.
Qed.

Lemma euclidianDistNode_unsited_target (v target : node) (w : world) :
  stored w target "x" = None \/ stored w target "y" = None ->
  euclidianDistNode v target w = (Raise KeyError, w).
Proof.
  intro H. rewrite euclidianDistNode_eval.
  destruct (stored w v "x"), (stored w v "y"); try reflexivity;
    destruct H as [-> | ->]; try reflexivity.
  destruct (stored w target "x"); reflexivity.
Qed.

(** A destination that stores no ["x"] or no ["y"] makes the search raise
    [KeyError] as soon as the origin, a different node, has an edge to
    follow: the error of the heuristic is not caught by [wheelchairPath]. *)
Theorem wheelchairPath_unsited_destination (w : world) (fuel : nat)
        (origin endpoint v : node) (kd : dict) (rest : list (node * dict)) :
  In origin (map fst (nodes (graph w))) ->
  In endpoint (map fst (nodes (graph w))) ->
  origin <> endpoint ->
  assoc Z.eqb origin (adj (graph w)) = Some ((v, kd) :: rest) ->
  Forall (fun kv => exists attrs, snd kv = VDict attrs) kd ->
  stored w endpoint "x" = None \/ stored w endpoint "y" = None ->
  wheelchairPath (S fuel) origin endpoint w = (Raise KeyError, w).
Proof.
  intros Ho He Hne Hadj Hkd Hmissing.
  apply mem_In in Ho, He. apply Z.eqb_neq in Hne.
  unfold wheelchairPath, try_except, astar_path.
  unfold bind at 1. unfold the_graph at 1. rewrite Ho, He. cbn [negb].
  cbn [astar_loop heappop queue]. cbv zeta.
  cbn [e_node e_dist e_parent c queue enqueued explored assoc].
  rewrite Hne.
  unfold bind at 1. unfold the_graph at 1.
  unfold bind at 1. unfold getitem at 1. rewrite Hadj. unfold ret at 1.
  unfold bind at 1. cbn [relax].
  unfold bind at 1. unfold ret at 1.
  rewrite (costWheelchair_parallel_edges origin v Hkd).
  cbn [enqueued assoc].
  unfold bind at 1.
  rewrite (euclidianDistNode_unsited_target v endpoint w Hmissing).
  reflexivity.
Qed.

(** [pathFromCoords] never reports that there is no path: with its two
    lookups the same, the search ends at its first step, so the empty path
    is never returned and nothing is printed; a node found outside the graph
    gives [NodeNotFound], and what the lookup raises is raised. *)
Theorem pathFromCoords_never_empty
        (nearest_nodes : MultiDiGraph -> num -> num -> outcome node)
        (fuel : nat) (x1 y1 x2 y2 : num) (w : world) :
  snd (pathFromCoords nearest_nodes (S fuel) x1 y1 x2 y2 w) = w /\
  fst (pathFromCoords nearest_nodes (S fuel) x1 y1 x2 y2 w) <> Ret [] /\
  (forall n,
      nearest_nodes (graph w) y1 x1 = Ret n ->
      ~ In n (map fst (nodes (graph w))) ->
      fst (pathFromCoords nearest_nodes (S fuel) x1 y1 x2 y2 w) =
        Raise NodeNotFound) /\
  (forall e,
      nearest_nodes (graph w) y1 x1 = Raise e ->
      fst (pathFromCoords nearest_nodes (S fuel) x1 y1 x2 y2 w) = Raise e).
Proof.
  unfold pathFromCoords, nearest, bind.
  destruct (nearest_nodes (graph w) y1 x1) as [n | e |].
  - unfold wheelchairPath, try_except, astar_path, bind, the_graph.
    destruct (mem Z.eqb n (nodes (graph w))) eqn:Hn; cbn.
    + rewrite Z.eqb_refl.
      destruct fuel; cbn; repeat split; try discriminate;
        intros m [= <-] Hm; apply mem_In in Hn; contradiction.
    + repeat split; try discriminate.
  - cbn. repeat split; try discriminate.
    all: try (intros e' [= <-]; reflexivity).
  - cbn. repeat split; discriminate.
Qed.
End HeuristicErrors.

(** ** The returned path visits no node twice *)

Section Simple.
Context {libm : Libm}.
Existing Instance binary64_on.
Variable w : world.
Variables origin target : node.
Hypothesis graph_shape : well_formed (graph w).
Hypothesis target_node : In target (map fst (nodes (graph w))).

Local Abbreviation G := (graph w).
Local Abbreviation heuristic := (fun u v : node => euclidianDistNode u v).
Local Abbreviation weight :=
  (fun (u v : node) (data : dict) => ret (costWheelchair u v data)).

(** The parents met on the way back come earlier and earlier in
    [explored]. *)
Lemma walk_back_simple (explored : list (node * option node)) :
  ordered explored ->
  forall fuel i n path p w',
    nth_error (map fst explored) i = Some n ->
    walk_back fuel explored (Some n) path w = (Ret p, w') ->
    exists chain,
      p = (path ++ n :: chain)%list /\
      NoDup (n :: chain) /\
      forall x, In x (n :: chain) ->
                exists j, (j <= i)%nat /\
                          nth_error (map fst explored) j = Some x.
Proof.
  intros [Hnd Hback].
  induction fuel as [| fuel IH]; intros i n path p w' Hi Hrun;
    [discriminate Hrun |].
  pose proof Hi as Hi'. rewrite nth_error_map in Hi'.
  destruct (nth_error explored i) as [[n' parent] |] eqn:Hentry;
    [| discriminate Hi'].
  cbn in Hi'. injection Hi' as ->.
  pose proof (In_assoc _ _ _ _ Hnd (nth_error_In _ _ Hentry)) as Hassoc.
  cbn [walk_back] in Hrun. unfold bind, getitem in Hrun.
  rewrite Hassoc in Hrun. cbn in Hrun.
  destruct parent as [q |].
  - destruct (Hback i n q Hentry) as (j & Hj & Hq).
    destruct (IH j q (path ++ [n])%list p w' Hq Hrun)
      as (chain & -> & Hnodup & Hidx).
    exists (q :: chain). split; [now rewrite <- app_assoc |]. split.
    + constructor; [| exact Hnodup].
      intro Hin. destruct (Hidx n Hin) as (k & Hk & Hnk).
      assert (i = k); [| lia].
      apply (proj1 (NoDup_nth_error (map fst explored)) Hnd);
        [apply nth_error_Some; congruence | congruence].
    + intros x [<- | Hin]; [exists i; split; [lia | exact Hi] |].
      destruct (Hidx x Hin) as (k & Hk & Hxk). exists k. split; [lia | exact Hxk].
  - assert (E : p = (path ++ [n])%list).
    { destruct fuel; cbn in Hrun; now injection Hrun as <- _. }
    exists []. split; [exact E |]. split.
    + constructor; [intros [] | constructor].
    + intros x [<- | []]. exists i. split; [lia | exact Hi].
Qed.

Local Abbreviation simple path :=
  (NoDup path /\ incl path (map fst (nodes G))).

Lemma expand_simple (fuel : nat) (cur : node) (dist : float) (s : search) :
  (forall s', running G origin target None s' ->
              forall path w',
                astar_loop heuristic weight target fuel s' w = (Ret path, w') ->
                simple path) ->
  dist = 0%float \/ dist = infinity ->
  running G origin target (Some cur) s ->
  mem Z.eqb cur (explored s) = true ->
  In cur (map fst (nodes G)) ->
  forall path w',
    (G0 <- the_graph ;;
     items <- getitem Z.eqb (adj G0) cur ;;
     s' <- relax heuristic weight target cur dist items s ;;
     astar_loop heuristic weight target fuel s') w = (Ret path, w') ->
    simple path.
Proof.
  intros Hloop Hdist R Hcur Hnode path w' Hrun.
  pose proof (wf_adj graph_shape cur Hnode) as Hadj.
  apply mem_assoc in Hadj. destruct Hadj as [items Hitems].
  assert (Hin : forall v kd, In (v, kd) items ->
                  In v (successors G cur) /\
                  Forall (fun kv => exists attrs, snd kv = VDict attrs) kd).
  { intros v kd Hvk. split.
    - unfold successors. rewrite Hitems. now apply (in_map fst) in Hvk.
    - now destruct (@wf_succ _ _ graph_shape cur items v kd Hitems Hvk)
        as (_ & _ & H). }
  unfold bind at 1 in Hrun. unfold the_graph in Hrun.
  unfold bind at 1 in Hrun. unfold getitem in Hrun.
  rewrite Hitems in Hrun. unfold ret at 1 in Hrun.
  unfold bind in Hrun.
  match type of Hrun with
  | context [relax ?h ?c target cur dist items s w] =>
      destruct (relax h c target cur dist items s w)
        as [[s' | e |] w1] eqn:Hrelax; try discriminate Hrun
  end.
  destruct (relax_sound w origin target cur dist items Hdist Hin
              s R Hcur s' w1 Hrelax) as (-> & R' & _ & Hall).
  refine (Hloop s' _ path w' Hrun).
  apply (running_done w origin target cur s' R').
  intros v Hv. unfold successors in Hv. rewrite Hitems in Hv.
  apply in_map_iff in Hv. destruct Hv as ([v' kd] & Heq & Hvk).
  cbn in Heq. subst v'. exact (Hall v kd Hvk).
Qed.

Lemma astar_loop_simple (fuel : nat) :
  forall s,
    running G origin target None s ->
    forall path w',
      astar_loop heuristic weight target fuel s w = (Ret path, w') ->
      simple path.
Proof.
  induction fuel as [| fuel IH]; intros s R path w' Hrun; [discriminate Hrun |].
  cbn [astar_loop] in Hrun.
  destruct (heappop (queue s)) as [[top rest] |] eqn:Hpop; [| discriminate Hrun].
  apply heappop_perm in Hpop.
  pose proof R as [Ro Rr Rq Rc Rn Rw Rf Rcl Rt Rord Rl Rnd Rp].
  destruct (queue_rest s top rest Hpop Rn) as (_ & Htop & _ & _ & _).
  destruct (Rq top Htop) as (p & Hp & Hpe & Hps & Hpq & Hpd).
  cbv zeta in Hrun. cbn [c queue enqueued explored] in Hrun.
  destruct (Z.eqb_spec (e_node top) target) as [Ht | Hnt].
  - rewrite Hp in Hrun. unfold bind in Hrun.
    destruct (walk_back fuel (explored s) (Some p) [e_node top] w)
      as [[p' | e |] w''] eqn:Hback; try discriminate Hrun.
    injection Hrun as <- _.
    assert (Hi : exists i, nth_error (map fst (explored s)) i = Some p).
    { apply In_nth_error. now apply mem_In. }
    destruct Hi as [i Hi].
    destruct (walk_back_simple (explored s) Rord fuel i p [e_node top] p' w''
                Hi Hback) as (chain & -> & Hnodup & Hidx).
    cbn [app]. rewrite Ht.
    assert (Hkeys : forall x, In x (p :: chain) ->
                              mem Z.eqb x (explored s) = true).
    { intros x Hx. destruct (Hidx x Hx) as (j & _ & Hj).
      apply mem_In. eapply nth_error_In. exact Hj. }
    split.
    + apply NoDup_rev. constructor; [| exact Hnodup].
      intro Hin. apply Hkeys in Hin. congruence.
    + intros x Hx. apply in_rev in Hx. destruct Hx as [<- | Hx];
        [exact target_node | apply Rnd; now apply Hkeys].
  - destruct (assoc Z.eqb (e_node top) (explored s)) as [[q |] |] eqn:Hex.
    + exfalso.
      assert (Hno : e_node top <> origin)
        by (intros E; rewrite E in Hex; congruence).
      pose proof (Rw top Htop Hno) as Hw.
      apply mem_false_assoc in Hw. congruence.
    + apply (IH _ (running_skip w origin target s top rest R Hpop
                     (Rr _ Hex)) path w' Hrun).
    + apply mem_false_assoc in Hex.
      refine (expand_simple fuel (e_node top) (e_dist top)
               {| c := c s; queue := rest; enqueued := enqueued s;
                  explored := setitem Z.eqb (e_node top) (e_parent top)
                                (explored s) |} IH (or_intror Hpd)
               (running_expand w origin target graph_shape s top rest R Hpop
                  Hex Hnt) _ _ path w' Hrun).
      * cbn [explored]. now rewrite mem_setitem, Z.eqb_refl.
      * exact (successor_node w graph_shape p (e_node top) Hps).
Qed.
End Simple.

Section SimplePath.
Context {libm : Libm}.
Existing Instance binary64_on.

(** On a well-formed multigraph a path returned by [wheelchairPath] visits
    no node twice and stays on nodes of the graph, so it has at most as many
    nodes as the graph. *)
Theorem wheelchairPath_simple_path (w w' : world) (origin endpoint : node)
        (fuel : nat) (path : list node) :
  well_formed (graph w) ->
  wheelchairPath fuel origin endpoint w = (Ret path, w') ->
  NoDup path /\
  incl path (map fst (nodes (graph w))) /\
  (List.length path <= List.length (nodes (graph w)))%nat.
Proof.
  intros Hwf Hrun.
  assert (H : NoDup path /\ incl path (map fst (nodes (graph w)))).
  { unfold wheelchairPath, try_except, astar_path in Hrun.
    unfold bind at 1 in Hrun. unfold the_graph at 1 in Hrun.
    destruct (mem Z.eqb origin (nodes (graph w))) eqn:Ho;
      [| discriminate Hrun].
    destruct (mem Z.eqb endpoint (nodes (graph w))) eqn:He;
      [| discriminate Hrun].
    cbn [negb] in Hrun. apply mem_In in Ho, He.
    destruct fuel as [| fuel]; [discriminate Hrun |].
    cbn [astar_loop queue heappop] in Hrun. cbv zeta in Hrun.
    cbn [e_node e_dist e_parent c queue enqueued explored] in Hrun.
    destruct (Z.eqb_spec origin endpoint) as [E | Hne].
    - assert (path = [origin]) as ->.
      { destruct fuel; cbn in Hrun; now injection Hrun as <- _. }
      split; [repeat constructor; intros [] | intros x [<- | []]; exact Ho].
    - cbn [assoc] in Hrun.
      match type of Hrun with
      | context [bind the_graph ?k w] =>
          destruct (bind the_graph k w) as [[p | e |] w''] eqn:Hloop
      end.
      + injection Hrun as <- _.
        apply (expand_simple w origin endpoint Hwf fuel origin
                 0%float _
                 (astar_loop_simple w origin endpoint Hwf He fuel)
                 (or_introl eq_refl)
                 (running_start w origin endpoint Ho Hne)
                 ltac:(cbn [explored]; now rewrite mem_setitem, Z.eqb_refl)
                 Ho p w'' Hloop).
      + destruct (exn_eqb e NetworkXNoPath); [| discriminate Hrun].
        cbn in Hrun. injection Hrun as <- _.
        split; [constructor | intros x []].
      + discriminate Hrun. }
  destruct H as [Hnd Hincl]. repeat split; auto.
  rewrite <- (length_map fst (nodes (graph w))).
  now apply NoDup_incl_length.
Qed.
End SimplePath.

(** ** The search goes level by level *)

Section Fifo.
Context {libm : Libm}.
Existing Instance binary64_on.

Lemma sorted_snoc (l : list nat) (n : nat) :
  StronglySorted lt l ->
  (forall x, In x l -> (x < n)%nat) ->
  StronglySorted lt (l ++ [n]).
Proof.
  induction l as [| a l IH]; intros Hs Hlt; cbn.
  - constructor; constructor.
  - inversion Hs as [| ? ? Hl Ha]; subst. constructor.
    + apply IH; [exact Hl | intros x Hx; apply Hlt; now right].
    + apply Forall_app. split; [exact Ha |].
      constructor; [apply Hlt; now left | constructor].
Qed.

(** With every priority [+inf] the least entry is the one with the least
    counter: the first of the queue. *)
Lemma heappop_fifo (q : list entry) (x : entry) :
  (forall e, In e (x :: q) -> e_prio e = infinity) ->
  StronglySorted lt (map e_count (x :: q)) ->
  heappop (x :: q) = Some (x, q).
Proof.
  revert x. induction q as [| y q IH]; intros x Hprio Hsorted; [reflexivity |].
  change (heappop (x :: y :: q)) with
    (match heappop (y :: q) with
     | None => Some (x, [])
     | Some (m, r) =>
         if entry_ltb m x then Some (m, x :: r) else Some (x, y :: q)
     end).
  rewrite IH.
  - unfold entry_ltb.
    rewrite (Hprio y) by (right; now left).
    rewrite (Hprio x) by now left.
    cbn [f_eqb binary64_on].
    change (PrimFloat.eqb infinity infinity) with true. cbv iota.
    inversion Hsorted as [| ? ? _ Hall]; subst.
    inversion Hall as [| ? ? Hxy _]; subst.
    destruct (Nat.ltb_spec (e_count y) (e_count x)); [lia | reflexivity].
  - intros e He. apply Hprio. now right.
  - now inversion Hsorted.
Qed.

(** The parent links from an explored node back to the root are as many as
    its level. *)
Lemma walk_back_levels (w : world) (lvl : node -> nat)
      (explored : list (node * option node)) :
  (forall n p, In (n, Some p) explored -> lvl n = S (lvl p)) ->
  (forall n, assoc Z.eqb n explored = Some None -> lvl n = O) ->
  forall fuel n path p w',
    walk_back fuel explored (Some n) path w = (Ret p, w') ->
    List.length p = (List.length path + S (lvl n))%nat.
Proof.
  intros Hparent Hroot.
  induction fuel as [| fuel IH]; intros n path p w' Hrun; [discriminate Hrun |].
  cbn [walk_back] in Hrun. unfold bind, getitem in Hrun.
  destruct (assoc Z.eqb n explored) as [[q |] |] eqn:Hn; cbn in Hrun.
  - apply IH in Hrun. rewrite Hrun, length_app. cbn [List.length].
    rewrite (Hparent n q (assoc_In _ _ _ _ Hn)). lia.
  - assert (E : p = (path ++ [n])%list).
    { destruct fuel; cbn in Hrun; now injection Hrun as <- _. }
    rewrite E, length_app, (Hroot n Hn). cbn. lia.
  - discriminate Hrun.
Qed.
End Fifo.

Section Bfs.
Context {libm : Libm}.
Existing Instance binary64_on.
Variable w : world.
Variables origin target : node.
Hypothesis graph_shape : well_formed (graph w).
Hypothesis target_calm : calm w target.
Hypothesis target_node : In target (map fst (nodes (graph w))).

Local Abbreviation G := (graph w).
Local Abbreviation heuristic := (fun u v : node => euclidianDistNode u v).
Local Abbreviation weight :=
  (fun (u v : node) (data : dict) => ret (costWheelchair u v data)).

(** While [cur] is expanded, a node that the search has not met yet is
    more than [lvl cur] edges away from the origin. *)
Lemma undiscovered_far (lvl : node -> nat) (lo : nat) (cur : node)
      (s : search) :
  running G origin target (Some cur) s ->
  levels G origin lvl lo s ->
  lvl cur = lo ->
  forall k v,
    steps G origin k v ->
    (mem Z.eqb v (explored s) = true \/ mem Z.eqb v (enqueued s) = true) \/
    (S lo <= k)%nat.
Proof.
  intros [Ro Rr Rq Rc Rn Rw Rf Rcl Rt Rord Rl Rnd Rp]
         [Lo Lp Le Lq Lpr Lc Ln (A & B & HAB & HA & HB)] Hcur.
  assert (Horigin : mem Z.eqb origin (explored s) = true)
    by (apply mem_assoc; eauto).
  assert (Hband : forall e, In e (queue s) -> (lo <= qlvl lvl e)%nat).
  { intros e He. rewrite HAB in He. apply in_app_or in He.
    destruct He as [He | He]; [rewrite (HA e He) | rewrite (HB e He)]; lia. }
  induction k as [| k IH]; intros v Hv; cbn [steps] in Hv.
  - subst v. left. now left.
  - destruct Hv as (u & Hu & Huv).
    assert (Hex : mem Z.eqb u (explored s) = true ->
                  (mem Z.eqb v (explored s) = true \/
                   mem Z.eqb v (enqueued s) = true) \/ (S lo <= S k)%nat).
    { intro Hue. destruct (Z.eq_dec u cur) as [-> | Hne].
      - right. pose proof (Le cur k Hue Hu). lia.
      - left. right. apply (Rcl u Hue); [congruence | exact Huv]. }
    destruct (IH u Hu) as [[Hue | Huq] | Hfar]; [now apply Hex | | right; lia].
    destruct (mem Z.eqb u (explored s)) eqn:Hue; [now apply Hex |].
    destruct (Rf u Huq) as [Hin | Hin]; [| congruence].
    apply in_map_iff in Hin. destruct Hin as (e & He & Hin).
    assert (Hno : e_node e <> origin) by (rewrite He; congruence).
    rewrite <- He in Hu.
    pose proof (Lq e k Hin Hno Hu). pose proof (Hband e Hin).
    right. lia.
Qed.

(** A push while [cur] is expanded keeps the levels: the new entry goes to
    the end of the queue, one level above [cur]. *)
Lemma levels_push (lvl : node -> nat) (lo : nat) (s : search) (v cur : node)
      (h : float) :
  running G origin target (Some cur) s ->
  levels G origin lvl lo s ->
  lvl cur = lo ->
  In v (successors G cur) ->
  mem Z.eqb v (enqueued s) = false ->
  levels G origin lvl lo
         {| c := S (c s);
            queue := (queue s ++
                      [{| e_prio := infinity; e_count := c s; e_node := v;
                          e_dist := infinity; e_parent := Some cur |}])%list;
            enqueued := setitem Z.eqb v (infinity, h) (enqueued s);
            explored := explored s |}.
Proof.
  intros R L Hcur Hv Hfresh.
  pose proof (undiscovered_far lvl lo cur s R L Hcur) as Hfar.
  destruct R as [Ro Rr Rq Rc Rn Rw Rf Rcl Rt Rord Rl Rnd Rp].
  destruct L as [Lo Lp Le Lq Lpr Lc Ln (A & B & HAB & HA & HB)].
  constructor; cbn [c queue enqueued explored];
    [exact Lo | exact Lp | exact Le | | | | |].
  - intros e k He Hno Hk. apply in_app_or in He.
    destruct He as [He | [<- | []]]; [now apply Lq |].
    cbn [e_node] in Hno, Hk. unfold qlvl. cbn [e_parent]. rewrite Hcur.
    destruct (Hfar k v Hk) as [[Hve | Hvq] | Hk']; [| congruence | exact Hk'].
    pose proof (Rp v Hve Hno). congruence.
  - intros e He. apply in_app_or in He.
    destruct He as [He | [<- | []]]; [now apply Lpr | reflexivity].
  - rewrite map_app. cbn [map e_count]. apply sorted_snoc; [exact Lc |].
    intros x Hx. apply in_map_iff in Hx. destruct Hx as (e & <- & He).
    now apply Ln.
  - intros e He. apply in_app_or in He.
    destruct He as [He | [<- | []]]; [pose proof (Ln e He); lia | cbn; lia].
  - exists A. eexists (B ++ [_])%list.
    split; [rewrite HAB, app_assoc; reflexivity |]. split; [exact HA |].
    intros e He. apply in_app_or in He.
    destruct He as [He | [<- | []]]; [now apply HB |].
    unfold qlvl. cbn [e_parent]. now rewrite Hcur.
Qed.

(** The loop over the successors of [cur] keeps the levels. *)
Lemma relax_levels (lvl : node -> nat) (lo : nat) (cur : node) (dist : float)
      (items : list (node * dict)) :
  dist = 0%float \/ dist = infinity ->
  (forall v kd, In (v, kd) items ->
                In v (successors G cur) /\
                Forall (fun kv => exists attrs, snd kv = VDict attrs) kd) ->
  lvl cur = lo ->
  forall s,
    running G origin target (Some cur) s ->
    levels G origin lvl lo s ->
    mem Z.eqb cur (explored s) = true ->
    forall s' w',
      relax heuristic weight target cur dist items s w = (Ret s', w') ->
      levels G origin lvl lo s'.
Proof.
  intros Hdist Hitems Hcur.
  induction items as [| [v kd] items IH]; intros s R L Hexp s' w' Hrun.
  - cbn in Hrun. now injection Hrun as <- _.
  - destruct (Hitems v kd (or_introl eq_refl)) as [Hsucc Hkd].
    assert (Hrest : forall v' kd', In (v', kd') items ->
                      In v' (successors G cur) /\
                      Forall (fun kv => exists attrs, snd kv = VDict attrs) kd').
    { intros v' kd' Hin. apply Hitems. now right. }
    cbn [relax] in Hrun. unfold bind at 1 in Hrun. unfold ret at 1 in Hrun.
    rewrite (costWheelchair_parallel_edges cur v Hkd) in Hrun.
    cbn [f_add f_inf f_leb binary64_on] in Hrun.
    rewrite (add_inf dist Hdist) in Hrun.
    destruct (assoc Z.eqb v (enqueued s)) as [[qcost h] |] eqn:Henq.
    + rewrite (@run_cost _ _ _ _ _ _ R v qcost h Henq) in Hrun.
      change (PrimFloat.leb infinity infinity) with true in Hrun.
      cbv iota in Hrun.
      exact (IH Hrest s R L Hexp s' w' Hrun).
    + destruct (heuristic_returns w target target_calm v
                  (successor_node w graph_shape cur v Hsucc))
        as (h & Hh & Hprio).
      unfold bind at 1 in Hrun. rewrite Hh in Hrun.
      apply mem_false_assoc in Henq.
      unfold push, heappush in Hrun. cbn [f_add binary64_on] in Hrun.
      rewrite Hprio in Hrun.
      match type of Hrun with
      | relax _ _ _ _ _ _ ?s1 _ = _ =>
          refine (IH Hrest s1 _ _ Hexp s' w' Hrun)
      end.
      * pose proof (running_push w origin target (Some cur) s v
                      cur h R Hexp Hsucc Henq) as R1.
        unfold push, heappush in R1. cbn [f_add binary64_on] in R1.
        rewrite Hprio in R1. exact R1.
      * exact (levels_push lvl lo s v cur h R L Hcur Hsucc Henq).
Qed.

(** Taking the first entry leaves the queue in levels, the lower one that
    of the entry taken. *)
Lemma levels_pop (lvl : node -> nat) (lo : nat) (s : search) (top : entry)
      (rest : list entry) :
  levels G origin lvl lo s ->
  queue s = top :: rest ->
  levels G origin lvl (qlvl lvl top)
         {| c := c s; queue := rest; enqueued := enqueued s;
            explored := explored s |}.
Proof.
  intros [Lo Lp Le Lq Lpr Lc Ln (A & B & HAB & HA & HB)] Hq.
  assert (Hsub : forall e, In e rest -> In e (queue s))
    by (intros e He; rewrite Hq; now right).
  constructor; cbn [c queue enqueued explored];
    [exact Lo | exact Lp | exact Le | | | | |].
  - intros e k He. apply Lq. now apply Hsub.
  - intros e He. apply Lpr. now apply Hsub.
  - rewrite Hq in Lc. cbn [map] in Lc. now inversion Lc.
  - intros e He. apply Ln. now apply Hsub.
  - rewrite Hq in HAB. destruct A as [| a A].
    + cbn [app] in HAB. exists rest, [].
      split; [now rewrite app_nil_r |]. split; [| intros e []].
      intros e He. rewrite (HB top), (HB e); [reflexivity | |];
        rewrite <- HAB; [now right | now left].
    + cbn [app] in HAB. injection HAB as <- ->.
      exists A, B. split; [reflexivity |]. split.
      * intros e He. rewrite (HA top) by now left. apply HA. now right.
      * intros e He. rewrite (HA top) by now left. now apply HB.
Qed.

(** Recording the node of the first entry with its parent gives it the
    level of the entry. *)
Lemma levels_explore (lvl lvl' : node -> nat) (lo : nat) (s : search)
      (top : entry) (rest : list entry) :
  running G origin target None s ->
  levels G origin lvl lo s ->
  queue s = top :: rest ->
  mem Z.eqb (e_node top) (explored s) = false ->
  (forall n, lvl' n = if Z.eqb n (e_node top) then qlvl lvl top else lvl n) ->
  levels G origin lvl' (qlvl lvl top)
         {| c := c s; queue := rest; enqueued := enqueued s;
            explored := setitem Z.eqb (e_node top) (e_parent top)
                          (explored s) |}.
Proof.
  intros R L Hq Hnew Elvl.
  pose proof (levels_pop lvl lo s top rest L Hq) as L'.
  destruct R as [Ro Rr Rq Rc Rn Rw Rf Rcl Rt Rord Rl Rnd Rp].
  destruct L as [Lo _ _ Lq _ _ _ _].
  destruct L' as [_ Lp Le Lq' Lpr Lc Ln (A & B & HAB & HA & HB)].
  cbn [c queue enqueued explored] in *.
  assert (Horigin : mem Z.eqb origin (explored s) = true)
    by (apply mem_assoc; eauto).
  assert (Hsame : forall n, mem Z.eqb n (explored s) = true -> lvl' n = lvl n).
  { intros n Hn. rewrite Elvl.
    destruct (Z.eqb_spec n (e_node top)) as [E | _]; [| reflexivity].
    rewrite E in Hn. congruence. }
  assert (Hin : forall e, In e (queue s) -> qlvl lvl' e = qlvl lvl e).
  { intros e He. destruct (Rq e He) as (p & Hp & Hpe & _).
    unfold qlvl. rewrite Hp. now rewrite (Hsame p Hpe). }
  assert (Hsub : forall e, In e rest -> In e (queue s))
    by (intros e He; rewrite Hq; now right).
  assert (Htop : In top (queue s)) by (rewrite Hq; now left).
  assert (Hno : e_node top <> origin) by congruence.
  constructor; cbn [c queue enqueued explored].
  - now rewrite (Hsame origin Horigin).
  - intros n p Hnp. rewrite setitem_fresh in Hnp by assumption.
    apply in_app_or in Hnp. destruct Hnp as [Hnp | [[= <- Hp] | []]].
    + assert (Hn : mem Z.eqb n (explored s) = true).
      { apply mem_In. now apply (in_map fst) in Hnp. }
      assert (Hpe : mem Z.eqb p (explored s) = true).
      { destruct Rord as [_ Hback].
        apply In_nth_error in Hnp. destruct Hnp as [i Hi].
        destruct (Hback i n p Hi) as (j & _ & Hj).
        apply mem_In. eapply nth_error_In. exact Hj. }
      rewrite (Hsame n Hn), (Hsame p Hpe). now apply Lp.
    + destruct (Rq top Htop) as (q & Hq' & Hqe & _).
      assert (q = p) as -> by congruence.
      rewrite (Hsame p Hqe). rewrite Elvl, Z.eqb_refl.
      unfold qlvl. now rewrite Hq'.
  - intros n k Hn Hk. rewrite mem_setitem in Hn.
    rewrite Elvl. destruct (Z.eqb_spec n (e_node top)) as [E | _].
    + rewrite E in Hk. now apply Lq.
    + cbn [orb] in Hn. now apply Le.
  - intros e k He Hne Hk. rewrite (Hin e (Hsub e He)). now apply Lq'.
  - exact Lpr.
  - exact Lc.
  - exact Ln.
  - exists A, B. split; [exact HAB |]. split.
    + intros e He. rewrite <- (HA e He). apply Hin, Hsub.
      rewrite HAB. apply in_or_app. now left.
    + intros e He. rewrite <- (HB e He). apply Hin, Hsub.
      rewrite HAB. apply in_or_app. now right.
Qed.

Local Abbreviation shortest path :=
  (forall k, steps G origin k target -> (List.length path <= S k)%nat).

Lemma expand_levels (fuel : nat) (cur : node) (dist : float) (s : search)
      (lvl : node -> nat) (lo : nat) :
  (forall s' lvl' lo',
      running G origin target None s' ->
      levels G origin lvl' lo' s' ->
      forall path w',
        astar_loop heuristic weight target fuel s' w = (Ret path, w') ->
        shortest path) ->
  dist = 0%float \/ dist = infinity ->
  running G origin target (Some cur) s ->
  levels G origin lvl lo s ->
  lvl cur = lo ->
  mem Z.eqb cur (explored s) = true ->
  In cur (map fst (nodes G)) ->
  forall path w',
    (G0 <- the_graph ;;
     items <- getitem Z.eqb (adj G0) cur ;;
     s' <- relax heuristic weight target cur dist items s ;;
     astar_loop heuristic weight target fuel s') w = (Ret path, w') ->
    shortest path.
Proof.
  intros Hloop Hdist R L Hlvl Hcur Hnode path w' Hrun.
  pose proof (wf_adj graph_shape cur Hnode) as Hadj.
  apply mem_assoc in Hadj. destruct Hadj as [items Hitems].
  assert (Hin : forall v kd, In (v, kd) items ->
                  In v (successors G cur) /\
                  Forall (fun kv => exists attrs, snd kv = VDict attrs) kd).
  { intros v kd Hvk. split.
    - unfold successors. rewrite Hitems. now apply (in_map fst) in Hvk.
    - now destruct (@wf_succ _ _ graph_shape cur items v kd Hitems Hvk)
        as (_ & _ & H). }
  destruct (relax_running w origin target graph_shape target_calm
              cur dist items Hdist Hin s R Hcur)
    as (s' & Hrelax & R' & _ & _ & _ & Hall).
  pose proof (relax_levels lvl lo cur dist items Hdist Hin Hlvl s R L Hcur
                s' w Hrelax) as L'.
  unfold bind at 1 in Hrun. unfold the_graph in Hrun.
  unfold bind at 1 in Hrun. unfold getitem in Hrun.
  rewrite Hitems in Hrun. unfold ret at 1 in Hrun.
  unfold bind in Hrun. rewrite Hrelax in Hrun.
  refine (Hloop s' lvl lo _ L' path w' Hrun).
  apply (running_done w origin target cur s' R').
  intros v Hv. unfold successors in Hv. rewrite Hitems in Hv.
  apply in_map_iff in Hv. destruct Hv as ([v' kd] & Heq & Hvk).
  cbn in Heq. subst v'. exact (Hall v kd Hvk).
Qed.

Lemma astar_loop_levels (fuel : nat) :
  forall s lvl lo,
    running G origin target None s ->
    levels G origin lvl lo s ->
    forall path w',
      astar_loop heuristic weight target fuel s w = (Ret path, w') ->
      shortest path.
Proof.
  induction fuel as [| fuel IH]; intros s lvl lo R L path w' Hrun;
    [discriminate Hrun |].
  cbn [astar_loop] in Hrun.
  destruct (queue s) as [| top rest] eqn:Hq; [discriminate Hrun |].
  pose proof L as [Lo Lp Le Lq Lpr Lc Ln _].
  rewrite heappop_fifo in Hrun;
    [| intros e He; apply Lpr; now rewrite Hq | now rewrite Hq in Lc].
  assert (Hpop : Permutation (queue s) (top :: rest)) by now rewrite Hq.
  pose proof R as [Ro Rr Rq Rc Rn Rw Rf Rcl Rt Rord Rl Rnd Rp].
  assert (Htop : In top (queue s)) by (rewrite Hq; now left).
  destruct (Rq top Htop) as (p & Hp & Hpe & Hps & Hpq & Hpd).
  cbv zeta in Hrun. cbn [c queue enqueued explored] in Hrun.
  destruct (Z.eqb_spec (e_node top) target) as [Ht | Hnt].
  - rewrite Hp in Hrun. unfold bind in Hrun.
    destruct (walk_back fuel (explored s) (Some p) [e_node top] w)
      as [[p' | e |] w''] eqn:Hback; try discriminate Hrun.
    injection Hrun as <- _.
    apply (walk_back_levels w lvl (explored s) Lp) in Hback.
    + intros k Hk. rewrite length_rev, Hback. cbn [List.length].
      assert (Hno : e_node top <> origin).
      { rewrite Ht. intros E. rewrite E in Rt.
        assert (mem Z.eqb origin (explored s) = true)
          by (apply mem_assoc; eauto).
        congruence. }
      rewrite <- Ht in Hk. pose proof (Lq top k Htop Hno Hk) as Hle.
      unfold qlvl in Hle. rewrite Hp in Hle. lia.
    + intros n Hn. now rewrite (Rr n Hn).
  - destruct (assoc Z.eqb (e_node top) (explored s)) as [[q |] |] eqn:Hex.
    + exfalso.
      assert (Hno : e_node top <> origin)
        by (intros E; rewrite E in Hex; congruence).
      pose proof (Rw top Htop Hno) as Hw.
      apply mem_false_assoc in Hw. congruence.
    + exact (IH _ lvl _
               (running_skip w origin target s top rest R Hpop (Rr _ Hex))
               (levels_pop lvl lo s top rest L Hq) path w' Hrun).
    + apply mem_false_assoc in Hex.
      refine (expand_levels fuel (e_node top) (e_dist top) _ _ _ IH
                (or_intror Hpd)
                (running_expand w origin target graph_shape s top rest R Hpop
                   Hex Hnt)
                (levels_explore lvl _ lo s top rest R L Hq Hex
                   (fun n => eq_refl))
                _ _ _ path w' Hrun).
      * cbn beta. now rewrite Z.eqb_refl.
      * cbn [explored]. now rewrite mem_setitem, Z.eqb_refl.
      * exact (successor_node w graph_shape p (e_node top) Hps).
Qed.

(** The levels when the origin has been taken from the queue. *)
Lemma levels_start :
  levels G origin (fun _ => O) O
         {| c := 1; queue := []; enqueued := [];
            explored := setitem Z.eqb origin None [] |}.
Proof.
  constructor; cbn [c queue enqueued explored setitem]; try reflexivity.
  - intros n p [[=] | []].
  - intros n k _ _. lia.
  - intros e k [].
  - intros e [].
  - constructor.
  - intros e [].
  - exists [], []. repeat split; intros e [].
Qed.

Lemma astar_path_levels (fuel : nat) (path : list node) (w' : world) :
  astar_path heuristic weight target fuel origin w = (Ret path, w') ->
  shortest path.
Proof.
  unfold astar_path. unfold bind at 1. unfold the_graph at 1.
  destruct (mem Z.eqb origin (nodes G)) eqn:Ho; [| discriminate].
  destruct (mem Z.eqb target (nodes G)) eqn:He; [| discriminate].
  cbn [negb]. apply mem_In in Ho.
  destruct fuel as [| fuel]; [discriminate |].
  cbn [astar_loop queue heappop]. cbv zeta.
  cbn [e_node e_dist e_parent c queue enqueued explored].
  destruct (Z.eqb_spec origin target) as [E | Hne].
  - intros Hrun k _.
    assert (path = [origin]) as ->.
    { destruct fuel; cbn in Hrun; now injection Hrun as <- _. }
    cbn. lia.
  - cbn [assoc]. intro Hrun.
    refine (expand_levels fuel origin 0%float _ (fun _ => O) O
              (astar_loop_levels fuel) (or_introl eq_refl)
              (running_start w origin target Ho Hne) levels_start eq_refl
              _ Ho path w' Hrun).
    cbn [explored]. now rewrite mem_setitem, Z.eqb_refl.
Qed.
End Bfs.

Section Fewest.
Context {libm : Libm}.
Existing Instance binary64_on.

Lemma edge_successor (G : MultiDiGraph) (u v : node) (k : key)
      (attrs : dict) :
  edge G u v k attrs -> In v (successors G u).
Proof.
  intros (items & kd & Hitems & Hkd & _).
  unfold successors. rewrite Hitems.
  apply assoc_In in Hkd. now apply (in_map fst) in Hkd.
Qed.

Lemma walk_steps (G : MultiDiGraph) (origin : node)
      (hops : list (node * key * dict)) :
  forall k u v,
    steps G origin k u -> walk G u hops v ->
    steps G origin (k + List.length hops) v.
Proof.
  induction hops as [| [[n key] attrs] hops IH]; intros k u v Hu Hw;
    cbn [walk List.length] in *.
  - subst v. now rewrite Nat.add_0_r.
  - destruct Hw as [Hedge Hrest].
    rewrite <- Nat.add_succ_comm. apply (IH (S k) n v); [| exact Hrest].
    exists u. split; [exact Hu | exact (edge_successor G u n key attrs Hedge)].
Qed.

(** The search is breadth-first.  On a well-formed multigraph, with the
    heuristic towards the destination returning from every node a value that
    is not a NaN and fuel as before, a search between two nodes joined by a
    path of edges returns a path from the origin to the destination that has
    the fewest edges: no path of edges between the two, accessible or not,
    long or short, has fewer. *)
Theorem wheelchairPath_fewest_edges (w : world) (origin endpoint : node)
        (fuel : nat) :
  well_formed (graph w) ->
  calm w endpoint ->
  In origin (map fst (nodes (graph w))) ->
  In endpoint (map fst (nodes (graph w))) ->
  (2 * List.length (nodes (graph w)) + 2 <= fuel)%nat ->
  (exists hops, walk (graph w) origin hops endpoint) ->
  exists path,
    wheelchairPath fuel origin endpoint w = (Ret path, w) /\
    leads (graph w) origin endpoint path /\
    forall hops,
      walk (graph w) origin hops endpoint ->
      (List.length path <= S (List.length hops))%nat.
Proof.
  intros Hwf Hcalm Ho He Hfuel [hops0 Hhops0].
  destruct (wheelchairPath_settled w origin endpoint Hwf Hcalm He fuel Ho
              Hfuel) as [Hyes _].
  destruct (Hyes (walk_connected (graph w) hops0 origin endpoint Hhops0))
    as (path & Hrun & Hleads).
  exists path. split; [exact Hrun |]. split; [exact Hleads |].
  intros hops Hhops.
  unfold wheelchairPath, try_except in Hrun.
  match type of Hrun with
  | context [astar_path ?h ?c endpoint fuel origin w] =>
      destruct (astar_path h c endpoint fuel origin w)
        as [[p | e |] w1] eqn:Hastar
  end.
  - injection Hrun as -> _.
    apply (astar_path_levels w origin endpoint Hwf Hcalm fuel path
             w1 Hastar (List.length hops)).
    exact (walk_steps (graph w) origin hops O origin endpoint eq_refl Hhops).
  - destruct (exn_eqb e NetworkXNoPath); [| discriminate Hrun].
    cbn in Hrun. injection Hrun as <- _.
    destruct Hleads as [Hhd _]. discriminate Hhd.
  - discriminate Hrun.
Qed.
End Fewest.

(** ** The search does not look at the positions either *)

Section KeyFacts.
Variables V1 V2 : Type.

Lemma same_keys_mem (d1 : list (node * V1)) (d2 : list (node * V2))
      (n : node) :
  map fst d1 = map fst d2 -> mem Z.eqb n d1 = mem Z.eqb n d2.
Proof.
  intro H. destruct (mem Z.eqb n d1) eqn:E1; symmetry.
  - apply mem_In. rewrite <- H. now apply mem_In.
  - apply mem_not_In. rewrite <- H. now apply mem_not_In.
Qed.

Lemma same_keys_setitem (n : node) (v1 : V1) (v2 : V2) :
  forall (d1 : list (node * V1)) (d2 : list (node * V2)),
    map fst d1 = map fst d2 ->
    map fst (setitem Z.eqb n v1 d1) = map fst (setitem Z.eqb n v2 d2).
Proof.
  induction d1 as [| [k x] d1 IH]; intros [| [k' x'] d2] H; cbn in *;
    try discriminate H; [reflexivity |].
  injection H as -> H.
  destruct (Z.eqb n k'); cbn [map fst]; f_equal; [exact H | exact (IH d2 H)].
Qed.
End KeyFacts.

Section OneStep.
Context {libm : Libm}.
Existing Instance binary64_on.
Variable w : world.
Variables origin target : node.
Hypothesis graph_shape : well_formed (graph w).
Hypothesis target_calm : calm w target.

Local Abbreviation G := (graph w).
Local Abbreviation heuristic := (fun u v : node => euclidianDistNode u v).
Local Abbreviation weight :=
  (fun (u v : node) (data : dict) => ret (costWheelchair u v data)).

(** What the loop over the successors does with the first of them: nothing
    when it is in [enqueued], and otherwise a push with priority and cost
    [+inf]. *)
Lemma relax_cons (cur v : node) (kd : dict) (dist : float)
      (items : list (node * dict)) (s : search) :
  dist = 0%float \/ dist = infinity ->
  In v (successors G cur) ->
  Forall (fun kv => exists attrs, snd kv = VDict attrs) kd ->
  running G origin target (Some cur) s ->
  mem Z.eqb cur (explored s) = true ->
  (mem Z.eqb v (enqueued s) = true /\
   relax heuristic weight target cur dist ((v, kd) :: items) s w =
   relax heuristic weight target cur dist items s w) \/
  (mem Z.eqb v (enqueued s) = false /\
   exists h s',
     s' = {| c := S (c s);
             queue := (queue s ++
                       [{| e_prio := infinity; e_count := c s; e_node := v;
                           e_dist := infinity; e_parent := Some cur |}])%list;
             enqueued := setitem Z.eqb v (infinity, h) (enqueued s);
             explored := explored s |} /\
     running G origin target (Some cur) s' /\
     relax heuristic weight target cur dist ((v, kd) :: items) s w =
     relax heuristic weight target cur dist items s' w).
Proof.
  intros Hdist Hsucc Hkd R Hexp.
  destruct (assoc Z.eqb v (enqueued s)) as [[qcost h] |] eqn:Henq;
    [left; split; [apply mem_assoc; eauto |]
    | right; split; [now apply mem_false_assoc |]].
  - cbn [relax]. unfold bind at 1. unfold ret at 1.
    rewrite (costWheelchair_parallel_edges cur v Hkd).
    cbn [f_add f_inf f_leb binary64_on].
    rewrite (add_inf dist Hdist), Henq.
    rewrite (@run_cost _ _ _ _ _ _ R v qcost h Henq).
    reflexivity.
  - destruct (heuristic_returns w target target_calm v
                (successor_node w graph_shape cur v Hsucc))
      as (h & Hh & Hprio).
    apply mem_false_assoc in Henq.
    pose proof (running_push w origin target (Some cur) s v cur h R Hexp
                  Hsucc Henq) as P.
    apply mem_false_assoc in Henq.
    unfold push, heappush in P. cbn [f_add binary64_on] in P.
    rewrite Hprio in P.
    exists h. eexists. split; [reflexivity |]. split; [exact P |].
    cbn [relax]. unfold bind at 1. unfold ret at 1.
    rewrite (costWheelchair_parallel_edges cur v Hkd).
    cbn [f_add f_inf f_leb binary64_on].
    rewrite (add_inf dist Hdist), Henq.
    unfold bind at 1. rewrite Hh.
    unfold push, heappush. cbn [f_add binary64_on].
    rewrite Hprio. reflexivity.
Qed.
End OneStep.

Section Positions.
Context {libm : Libm}.
Existing Instance binary64_on.
Variables w1 w2 : world.
Variables origin target : node.
Hypothesis shape1 : well_formed (graph w1).
Hypothesis shape2 : well_formed (graph w2).
Hypothesis target1 : In target (map fst (nodes (graph w1))).
Hypothesis target2 : In target (map fst (nodes (graph w2))).
Hypothesis calm1 : calm w1 target.
Hypothesis calm2 : calm w2 target.
Hypothesis same_adj : adj (graph w1) = adj (graph w2).

Local Abbreviation heuristic := (fun u v : node => euclidianDistNode u v).
Local Abbreviation weight :=
  (fun (u v : node) (data : dict) => ret (costWheelchair u v data)).

Lemma same_successors (u : node) :
  successors (graph w1) u = successors (graph w2) u.
Proof. unfold successors. now rewrite same_adj. Qed.

Lemma relax_twin (cur : node) (dist : float) (items : list (node * dict)) :
  dist = 0%float \/ dist = infinity ->
  (forall v kd, In (v, kd) items ->
                In v (successors (graph w1) cur) /\
                Forall (fun kv => exists attrs, snd kv = VDict attrs) kd) ->
  forall s1 s2,
    running (graph w1) origin target (Some cur) s1 ->
    running (graph w2) origin target (Some cur) s2 ->
    twin s1 s2 ->
    mem Z.eqb cur (explored s1) = true ->
    forall s1' s2',
      relax heuristic weight target cur dist items s1 w1 = (Ret s1', w1) ->
      relax heuristic weight target cur dist items s2 w2 = (Ret s2', w2) ->
      twin s1' s2'.
Proof.
  intros Hdist.
  induction items as [| [v kd] items IH];
    intros Hitems s1 s2 R1 R2 T Hexp s1' s2' Hrun1 Hrun2.
  - cbn in Hrun1, Hrun2. injection Hrun1 as <-. injection Hrun2 as <-.
    exact T.
  - destruct (Hitems v kd (or_introl eq_refl)) as [Hsucc Hkd].
    assert (Hrest : forall v' kd', In (v', kd') items ->
                      In v' (successors (graph w1) cur) /\
                      Forall (fun kv => exists attrs, snd kv = VDict attrs) kd').
    { intros v' kd' Hin. apply Hitems. now right. }
    pose proof Hsucc as Hsucc2. rewrite same_successors in Hsucc2.
    pose proof T as (Tc & Tq & Te & Tk).
    pose proof (same_keys_mem _ _ (enqueued s1) (enqueued s2) v Tk) as Hmem.
    assert (Hexp2 : mem Z.eqb cur (explored s2) = true) by now rewrite <- Te.
    destruct (relax_cons w1 origin target shape1 calm1
                cur v kd dist items s1 Hdist Hsucc Hkd R1 Hexp)
      as [[Hm1 E1] | (Hm1 & h1 & t1 & Et1 & P1 & E1)];
      destruct (relax_cons w2 origin target shape2 calm2
                  cur v kd dist items s2 Hdist Hsucc2 Hkd R2 Hexp2)
      as [[Hm2 E2] | (Hm2 & h2 & t2 & Et2 & P2 & E2)]; try congruence;
      rewrite E1 in Hrun1; rewrite E2 in Hrun2.
    + exact (IH Hrest s1 s2 R1 R2 T Hexp s1' s2' Hrun1 Hrun2).
    + refine (IH Hrest t1 t2 P1 P2 _ _ s1' s2' Hrun1 Hrun2).
      * subst t1 t2. unfold twin. cbn [c queue enqueued explored].
        rewrite Tc, Tq. repeat split; [exact Te |].
        now apply same_keys_setitem.
      * subst t1. exact Hexp.
Qed.

Lemma expand_twin (fuel : nat) (cur : node) (dist : float) (s1 s2 : search) :
  (forall t1 t2,
      running (graph w1) origin target None t1 ->
      running (graph w2) origin target None t2 ->
      twin t1 t2 ->
      fst (astar_loop heuristic weight target fuel t1 w1) =
      fst (astar_loop heuristic weight target fuel t2 w2)) ->
  dist = 0%float \/ dist = infinity ->
  running (graph w1) origin target (Some cur) s1 ->
  running (graph w2) origin target (Some cur) s2 ->
  twin s1 s2 ->
  mem Z.eqb cur (explored s1) = true ->
  In cur (map fst (nodes (graph w1))) ->
  fst ((G <- the_graph ;;
        items <- getitem Z.eqb (adj G) cur ;;
        s' <- relax heuristic weight target cur dist items s1 ;;
        astar_loop heuristic weight target fuel s') w1) =
  fst ((G <- the_graph ;;
        items <- getitem Z.eqb (adj G) cur ;;
        s' <- relax heuristic weight target cur dist items s2 ;;
        astar_loop heuristic weight target fuel s') w2).
Proof.
  intros Hloop Hdist R1 R2 T Hexp Hnode.
  pose proof (wf_adj shape1 cur Hnode) as Hadj.
  apply mem_assoc in Hadj. destruct Hadj as [items Hitems].
  pose proof Hitems as Hitems2. rewrite same_adj in Hitems2.
  assert (Hin1 : forall v kd, In (v, kd) items ->
                   In v (successors (graph w1) cur) /\
                   Forall (fun kv => exists attrs, snd kv = VDict attrs) kd).
  { intros v kd Hvk. split.
    - unfold successors. rewrite Hitems. now apply (in_map fst) in Hvk.
    - now destruct (@wf_succ _ _ shape1 cur items v kd Hitems Hvk)
        as (_ & _ & H). }
  assert (Hin2 : forall v kd, In (v, kd) items ->
                   In v (successors (graph w2) cur) /\
                   Forall (fun kv => exists attrs, snd kv = VDict attrs) kd).
  { intros v kd Hvk. rewrite <- same_successors. now apply Hin1. }
  assert (Hexp2 : mem Z.eqb cur (explored s2) = true).
  { destruct T as (_ & _ & Te & _). now rewrite <- Te. }
  destruct (relax_running w1 origin target shape1 calm1
              cur dist items Hdist Hin1 s1 R1 Hexp)
    as (t1 & Hrelax1 & R1' & _ & _ & _ & Hall1).
  destruct (relax_running w2 origin target shape2 calm2
              cur dist items Hdist Hin2 s2 R2 Hexp2)
    as (t2 & Hrelax2 & R2' & _ & _ & _ & Hall2).
  pose proof (relax_twin cur dist items Hdist Hin1 s1 s2 R1 R2 T Hexp t1 t2
                Hrelax1 Hrelax2) as T'.
  assert (E1 : (G <- the_graph ;;
                items <- getitem Z.eqb (adj G) cur ;;
                s' <- relax heuristic weight target cur dist items s1 ;;
                astar_loop heuristic weight target fuel s') w1 =
               astar_loop heuristic weight target fuel t1 w1).
  { unfold bind at 1. unfold the_graph. unfold bind at 1. unfold getitem.
    rewrite Hitems. unfold ret at 1. unfold bind. now rewrite Hrelax1. }
  assert (E2 : (G <- the_graph ;;
                items <- getitem Z.eqb (adj G) cur ;;
                s' <- relax heuristic weight target cur dist items s2 ;;
                astar_loop heuristic weight target fuel s') w2 =
               astar_loop heuristic weight target fuel t2 w2).
  { unfold bind at 1. unfold the_graph. unfold bind at 1. unfold getitem.
    rewrite Hitems2. unfold ret at 1. unfold bind. now rewrite Hrelax2. }
  rewrite E1, E2. apply Hloop; [| | exact T'].
  - apply (running_done w1 origin target cur t1 R1').
    intros v Hv. unfold successors in Hv. rewrite Hitems in Hv.
    apply in_map_iff in Hv. destruct Hv as ([v' kd] & Heq & Hvk).
    cbn in Heq. subst v'. exact (Hall1 v kd Hvk).
  - apply (running_done w2 origin target cur t2 R2').
    intros v Hv. unfold successors in Hv. rewrite Hitems2 in Hv.
    apply in_map_iff in Hv. destruct Hv as ([v' kd] & Heq & Hvk).
    cbn in Heq. subst v'. exact (Hall2 v kd Hvk).
Qed.

Lemma astar_loop_twin (fuel : nat) :
  forall s1 s2,
    running (graph w1) origin target None s1 ->
    running (graph w2) origin target None s2 ->
    twin s1 s2 ->
    fst (astar_loop heuristic weight target fuel s1 w1) =
    fst (astar_loop heuristic weight target fuel s2 w2).
Proof.
  induction fuel as [| fuel IH]; intros s1 s2 R1 R2 T; [reflexivity |].
  pose proof T as (Tc & Tq & Te & Tk).
  cbn [astar_loop]. rewrite <- Tq, <- Te, <- Tc.
  destruct (heappop (queue s1)) as [[top rest] |] eqn:Hpop; [| reflexivity].
  apply heappop_perm in Hpop.
  assert (Hpop2 : Permutation (queue s2) (top :: rest)) by now rewrite <- Tq.
  pose proof R1 as [Ro Rr Rq Rc Rn Rw Rf Rcl Rt Rord Rl Rnd Rp].
  destruct (queue_rest s1 top rest Hpop Rn) as (_ & Htop & _ & _ & _).
  destruct (Rq top Htop) as (p & Hp & Hpe & Hps & Hpq & Hpd).
  cbv zeta. cbn [c queue enqueued explored].
  destruct (Z.eqb_spec (e_node top) target) as [Ht | Hnt].
  - rewrite (stateless_bind _ _ _ _ w1), (stateless_bind _ _ _ _ w2)
      by apply keeps_walk_back.
    rewrite (walk_back_blind w1 w2).
    destruct (fst (walk_back _ _ _ _ w2)); reflexivity.
  - destruct (assoc Z.eqb (e_node top) (explored s1)) as [[q |] |] eqn:Hex.
    + exfalso.
      assert (Hno : e_node top <> origin)
        by (intros E; rewrite E in Hex; congruence).
      pose proof (Rw top Htop Hno) as Hw.
      apply mem_false_assoc in Hw. congruence.
    + apply IH.
      * exact (running_skip w1 origin target s1 top rest R1 Hpop (Rr _ Hex)).
      * rewrite Tc, Te.
        exact (running_skip w2 origin target s2 top rest R2 Hpop2 (Rr _ Hex)).
      * unfold twin. cbn [c queue enqueued explored]. auto.
    + apply mem_false_assoc in Hex.
      assert (Hex2 : mem Z.eqb (e_node top) (explored s2) = false)
        by now rewrite <- Te.
      apply (expand_twin fuel (e_node top) (e_dist top)); auto.
      * exact (running_expand w1 origin target shape1 s1 top rest R1 Hpop
                 Hex Hnt).
      * rewrite Tc, Te.
        exact (running_expand w2 origin target shape2 s2 top rest R2 Hpop2
                 Hex2 Hnt).
      * unfold twin. cbn [c queue enqueued explored]. auto.
      * cbn [explored]. now rewrite mem_setitem, Z.eqb_refl.
      * exact (successor_node w1 shape1 p (e_node top) Hps).
Qed.

Lemma astar_path_twin (fuel : nat) :
  In origin (map fst (nodes (graph w1))) ->
  In origin (map fst (nodes (graph w2))) ->
  fst (astar_path heuristic weight target fuel origin w1) =
  fst (astar_path heuristic weight target fuel origin w2).
Proof.
  intros Ho1 Ho2.
  pose proof Ho1 as Hm1. pose proof Ho2 as Hm2.
  pose proof target1 as Ht1. pose proof target2 as Ht2.
  apply mem_In in Hm1, Hm2, Ht1, Ht2.
  unfold astar_path. unfold bind, the_graph.
  rewrite Hm1, Hm2, Ht1, Ht2. cbn [negb].
  destruct fuel as [| fuel]; [reflexivity |].
  cbn [astar_loop queue heappop]. cbv zeta.
  cbn [e_node e_dist e_parent c queue enqueued explored].
  destruct (Z.eqb_spec origin target) as [E | Hne].
  - destruct fuel; reflexivity.
  - cbn [assoc].
    apply (expand_twin fuel origin 0%float); auto.
    + apply astar_loop_twin.
    + now apply running_start.
    + now apply running_start.
    + unfold twin. cbn. auto.
    + cbn [explored]. now rewrite mem_setitem, Z.eqb_refl.
Qed.
End Positions.

Section NoPositions.
Context {libm : Libm}.
Existing Instance binary64_on.

(** On two multigraphs with the same streets and the same nodes stored at
    different positions, [wheelchairPath] has the same outcome as long as,
    on both, the heuristic towards the destination returns from every node a
    value that is not a NaN: the heuristic plays no part in the search. *)
Theorem wheelchairPath_blind_to_positions (w1 w2 : world) (fuel : nat)
        (origin endpoint : node) :
  well_formed (graph w1) ->
  adj (graph w1) = adj (graph w2) ->
  map fst (nodes (graph w1)) = map fst (nodes (graph w2)) ->
  calm w1 endpoint ->
  calm w2 endpoint ->
  fst (wheelchairPath fuel origin endpoint w1) =
  fst (wheelchairPath fuel origin endpoint w2).
Proof.
  intros Hwf Hadj Hkeys Hc1 Hc2.
  assert (Hwf2 : well_formed (graph w2)).
  { destruct Hwf as [Ha Hs]. split.
    - intros n Hn. rewrite <- Hadj. apply Ha. now rewrite Hkeys.
    - intros u items v kd Hitems Hin. rewrite <- Hkeys.
      rewrite <- Hadj in Hitems. exact (Hs u items v kd Hitems Hin). }
  assert (Hnodes : forall n, mem Z.eqb n (nodes (graph w1)) =
                             mem Z.eqb n (nodes (graph w2))).
  { intro n. now apply same_keys_mem. }
  assert (H : fst (astar_path (fun u v => euclidianDistNode u v)
                     (fun u v data => ret (costWheelchair u v data))
                     endpoint fuel origin w1) =
              fst (astar_path (fun u v => euclidianDistNode u v)
                     (fun u v data => ret (costWheelchair u v data))
                     endpoint fuel origin w2)).
  { destruct (mem Z.eqb origin (nodes (graph w1))) eqn:Ho.
    - destruct (mem Z.eqb endpoint (nodes (graph w1))) eqn:He.
      + pose proof Ho as Ho2. pose proof He as He2.
        rewrite Hnodes in Ho2, He2. apply mem_In in Ho, He, Ho2, He2.
        now apply astar_path_twin.
      + unfold astar_path, bind, the_graph.
        rewrite <- !Hnodes, Ho, He. reflexivity.
    - unfold astar_path, bind, the_graph.
      rewrite <- !Hnodes, Ho. reflexivity. }
  unfold wheelchairPath, try_except.
  destruct (astar_path _ _ endpoint fuel origin w1) as [[p1 | e1 |] w1'];
    destruct (astar_path _ _ endpoint fuel origin w2) as [[p2 | e2 |] w2'];
    cbn in H; try discriminate H; try reflexivity.
  - exact H.
  - injection H as <-. destruct (exn_eqb e1 NetworkXNoPath); reflexivity.
Qed.
End NoPositions.

(** ** The properties above on the small maps *)

Section MoreExamples.
Existing Instance binary64.

Lemma detour_shape : well_formed (graph detour).
Proof. shape_of_map. Qed.

Lemma detour_calm : calm detour 3.
Proof. calm_map. Qed.

Lemma detour_folded_calm : calm detour_folded 3.
Proof. calm_map. Qed.

Lemma wheelchairPath_unsited_destination_witness :
  wheelchairPath 1 1 2 unsited_end = (Raise KeyError, unsited_end).
Proof.
  apply (wheelchairPath_unsited_destination unsited_end 0 1 2 2
           (one_edge (street "yes" 5)) []).
  - cbn. auto.
  - cbn. auto.
  - discriminate.
  - reflexivity.
  - repeat constructor. eexists. reflexivity.
  - left. reflexivity.
Defined.

Lemma wheelchairPath_simple_path_witness :
  NoDup [1%Z; 3%Z] /\
  incl [1%Z; 3%Z] (map fst (nodes (graph detour))) /\
  (List.length [1%Z; 3%Z] <= List.length (nodes (graph detour)))%nat.
Proof.
  apply (wheelchairPath_simple_path detour detour 1 3 8 [1%Z; 3%Z]).
  - exact detour_shape.
  - vm_compute. reflexivity.
Defined.

Lemma wheelchairPath_fewest_edges_witness :
  exists path,
    wheelchairPath 8 1 3 detour = (Ret path, detour) /\
    leads (graph detour) 1 3 path /\
    forall hops,
      walk (graph detour) 1 hops 3 ->
      (List.length path <= S (List.length hops))%nat.
Proof.
  apply wheelchairPath_fewest_edges.
  - exact detour_shape.
  - exact detour_calm.
  - cbn. auto.
  - cbn. auto.
  - cbn. lia.
  - exists long_way. split; [| reflexivity].
    do 2 eexists. repeat split.
Defined.

Lemma wheelchairPath_blind_to_positions_witness :
  fst (wheelchairPath 8 1 3 detour) = fst (wheelchairPath 8 1 3 detour_folded).
Proof.
  apply wheelchairPath_blind_to_positions.
  - exact detour_shape.
  - reflexivity.
  - reflexivity.
  - exact detour_calm.
  - exact detour_folded_calm.
Defined.
End MoreExamples.
